(** * StepperMotors: the Portescap 20MO20DIU controller of steppermotors.py

    A shallow embedding of class [Portescap20MO20DIU] : its constructor and
    its three methods, run against a digital I/O device that records every
    call made to it.  Python integers are [Z], the two durations are
    rationals, [self.states] is a [list Z] mutated through the four list
    operations the source uses, and exceptions are results. *)

From Stdlib Require Import ZArith QArith List Bool String Lia Permutation.
Import ListNotations.

Local Open Scope Z_scope.

(** ** Exceptions and the state-and-exception monad *)

(** [Error] is the class imported from module [errors]; [IndexError] and
    [ValueError] are raised by the list operations, by [<<] and by
    [time.sleep]. *)
Inductive exn : Type :=
| Error (msg : string)
| IndexError
| ValueError.

Inductive res (A : Type) : Type :=
| Ok (a : A)
| Raise (e : exn).

Arguments Ok {A} a.
Arguments Raise {A} e.

(** A computation reads and writes a state [S] and either returns or raises;
    the state reached when an exception is raised is kept, as the mutations
    made before a Python exception are. *)
Definition M (S A : Type) : Type := S -> res A * S.

Definition ret {S A} (a : A) : M S A := fun s => (Ok a, s).

Definition raise {S A} (e : exn) : M S A := fun s => (Raise e, s).

Definition bind {S A B} (m : M S A) (f : A -> M S B) : M S B :=
  fun s => match m s with
           | (Ok a, s') => f a s'
           | (Raise e, s') => (Raise e, s')
           end.

Definition gets {S A} (f : S -> A) : M S A := fun s => (Ok (f s), s).

Definition modify {S} (f : S -> S) : M S unit := fun s => (Ok tt, f s).

Definition liftR {S A} (r : res A) : M S A := fun s => (r, s).

Declare Scope py_scope.
Delimit Scope py_scope with py.

Notation "x <- m ;; k" := (bind m (fun x => k))
  (at level 61, m at next level, right associativity) : py_scope.
Notation "m ;; k" := (bind m (fun _ => k))
  (at level 61, right associativity) : py_scope.

(** [for i in range(n): body], the loop variable being unused in the source. *)
Fixpoint for_range {S} (n : nat) (body : M S unit) : M S unit :=
  match n with
  | O => ret tt
  | Datatypes.S k => bind body (fun _ => for_range k body)
  end.

(** [range(steps)] is empty for [steps <= 0]. *)
Definition range_len (steps : Z) : nat := Z.to_nat steps.

(** ** Python primitives used by the module *)

(** [a << b] on Python integers: a negative shift count raises. *)
Definition py_lshift (a b : Z) : res Z :=
  if b <? 0 then Raise ValueError else Ok (Z.shiftl a b).

(** [l[0]] *)
Definition py_index0 (l : list Z) : res Z :=
  match l with
  | [] => Raise IndexError
  | x :: _ => Ok x
  end.

(** [l.pop(0)] : the popped element and the list left. *)
Definition py_pop0 (l : list Z) : res (Z * list Z) :=
  match l with
  | [] => Raise IndexError
  | x :: t => Ok (x, t)
  end.

(** [l.pop()] : the popped (last) element and the list left. *)
Definition py_pop (l : list Z) : res (Z * list Z) :=
  match l with
  | [] => Raise IndexError
  | _ :: _ => Ok (last l 0, removelast l)
  end.

(** [l.append(x)] and [l.insert(0, x)] *)
Definition py_append (l : list Z) (x : Z) : list Z := l ++ [x].
Definition py_insert0 (l : list Z) (x : Z) : list Z := x :: l.

(** ** The digital I/O device *)

(** The calls the module makes to [labjacku12] and to [time.sleep], in the
    order they are made. *)
Inductive call : Type :=
| CheckConnection
| SetDIOToOutput (outputs initial_value : Z)
| WriteToDIO (value mask : Z)
| Sleep (seconds : Q).

(** Modelled from the spec: module [labjacku12] (or [labjacku12_dummy],
    chosen by [os.name]) is imported by steppermotors.py but is not part of
    the sources at hand.  The interface is the collaborator contract of the
    specification: a health probe whose zero/false result means unreachable,
    configure-outputs-with-initial-value, and write-masked-pattern. *)
Class DigitalIO (D : Type) : Type := {
  check_connection : D -> Z;
  set_DIO_to_output : Z -> Z -> D -> D;
  write_to_DIO : Z -> Z -> D -> D
}.

(** Modelled from the spec: the device of the collaborator contract, absent
    from the sources.  [configure_outputs] marks the bits set in the mask as
    outputs and drives them to the corresponding bits of the initial value;
    [write] drives each bit set in the mask to the corresponding bit of the
    value; in both, bits outside the mask are unaffected.  Levels are kept as
    integers of any width: nothing is cut to the 16 lines of the device. *)
Record labjack : Type := {
  probe : Z;
  direction : Z;
  level : Z
}.

Definition masked_update (old value mask : Z) : Z :=
  Z.lor (Z.ldiff old mask) (Z.land value mask).

#[export] Instance LabJackU12 : DigitalIO labjack := {
  check_connection d := probe d;
  set_DIO_to_output outputs initial_value d :=
    {| probe := probe d;
       direction := Z.lor (direction d) outputs;
       level := masked_update (level d) initial_value outputs |};
  write_to_DIO value mask d :=
    {| probe := probe d;
       direction := direction d;
       level := masked_update (level d) value mask |}
}.

(** ** The controller object *)

Record Portescap20MO20DIU : Type := {
  nibble : Z;
  step_time : Q;
  settle_time : Q;
  states : list Z;
  off : Z
}.

Definition set_states (l : list Z) (c : Portescap20MO20DIU) : Portescap20MO20DIU :=
  {| nibble := nibble c;
     step_time := step_time c;
     settle_time := settle_time c;
     states := l;
     off := off c |}.

Section Controller.

Context {D : Type} {dev : DigitalIO D}.

(** The world outside the object: the device and the record of calls, oldest
    first. *)
Record world : Type := {
  device : D;
  calls : list call
}.

Definition apply_call (e : call) (d : D) : D :=
  match e with
  | CheckConnection => d
  | SetDIOToOutput o i => set_DIO_to_output o i d
  | WriteToDIO v m => write_to_DIO v m d
  | Sleep _ => d
  end.

Definition emit (e : call) (w : world) : world :=
  {| device := apply_call e (device w); calls := calls w ++ [e] |}.

Definition emits (es : list call) (w : world) : world :=
  fold_left (fun w e => emit e w) es w.

(** The state a method runs in: [self] and the world. *)
Definition state : Type := (Portescap20MO20DIU * world)%type.

Definition self_of (s : state) : Portescap20MO20DIU := fst s.

Definition in_world (f : world -> world) : M state unit :=
  modify (fun s => (fst s, f (snd s))).

(** [labjacku12.write_to_DIO(value, mask)] *)
Definition io_write (value mask : Z) : M state unit :=
  in_world (emit (WriteToDIO value mask)).

(** [time.sleep(t)] : a negative length raises [ValueError]. *)
Definition time_sleep (t : Q) : M state unit :=
  if Qle_bool 0 t then in_world (emit (Sleep t)) else raise ValueError.

(** [labjacku12.write_to_DIO(x << (4 * self.nibble), 0xf << (4 * self.nibble))],
    the arguments evaluated left to right; [x] is [self.states[0]] or
    [self.off]. *)
Definition write_nibble (x : M state Z) : M state unit :=
  (v <- x ;;
   n <- gets (fun s => nibble (self_of s)) ;;
   value <- liftR (py_lshift v (4 * n)) ;;
   mask <- liftR (py_lshift 0xf (4 * n)) ;;
   io_write value mask)%py.

(** [self.states[0]] *)
Definition states_0 : M state Z :=
  (l <- gets (fun s => states (self_of s)) ;; liftR (py_index0 l))%py.

Definition put_states (l : list Z) : M state unit :=
  modify (fun s => (set_states l (fst s), snd s)).

(** [self.states.append(self.states.pop(0))] *)
Definition rotate_clockwise : M state unit :=
  (l <- gets (fun s => states (self_of s)) ;;
   p <- liftR (py_pop0 l) ;;
   put_states (py_append (snd p) (fst p)))%py.

(** [self.states.insert(0, self.states.pop())] *)
Definition rotate_counterclockwise : M state unit :=
  (l <- gets (fun s => states (self_of s)) ;;
   p <- liftR (py_pop l) ;;
   put_states (py_insert0 (snd p) (fst p)))%py.

(** The module-level [power_transistors] is a parameter of the constructor
    model.  The attributes assigned before the health check live on an object
    that the raising constructor never hands to its caller, so the
    constructor yields the object only on success. *)
Definition not_responding : string :=
  "The LabJack used to control the Portescap 20MO20DIU stepper motor is not responding.".

Definition __init__ (power_transistors : string)
    (nibble0 : Z) (step_time0 settle_time0 : Q) : M world Portescap20MO20DIU :=
  (answer <- (fun w => (Ok (check_connection (device w)), emit CheckConnection w)) ;;
   (if answer =? 0 then raise (Error not_responding) else ret tt) ;;
   Outputs <- liftR (py_lshift 0xf (4 * nibble0)) ;;
   InitialValue <- liftR (py_lshift 0xf (4 * nibble0)) ;;
   modify (emit (SetDIOToOutput Outputs InitialValue)) ;;
   if String.eqb power_transistors "ptype"
   then ret {| nibble := nibble0; step_time := step_time0;
               settle_time := settle_time0;
               states := [0x9; 0x5; 0x6; 0xa]; off := 0xf |}
   else ret {| nibble := nibble0; step_time := step_time0;
               settle_time := settle_time0;
               states := [0x6; 0xa; 0x9; 0x5]; off := 0x0 |})%py.

Definition step_clockwise (steps : Z) : M state unit :=
  (write_nibble states_0 ;;
   for_range (range_len steps)
     (rotate_clockwise ;;
      write_nibble states_0 ;;
      t <- gets (fun s => step_time (self_of s)) ;;
      time_sleep t) ;;
   t <- gets (fun s => settle_time (self_of s)) ;;
   time_sleep t ;;
   write_nibble (gets (fun s => off (self_of s))))%py.

Definition step_counterclockwise (steps : Z) : M state unit :=
  (write_nibble states_0 ;;
   for_range (range_len steps)
     (rotate_counterclockwise ;;
      write_nibble states_0 ;;
      t <- gets (fun s => step_time (self_of s)) ;;
      time_sleep t) ;;
   t <- gets (fun s => settle_time (self_of s)) ;;
   time_sleep t ;;
   write_nibble (gets (fun s => off (self_of s))))%py.

Definition turn_power_off : M state unit :=
  write_nibble (gets (fun s => off (self_of s))).

(** A caller's use of a constructed object: a sequence of method calls, each
    run to its end (normal or exceptional) on the object as the previous call
    left it. *)
Inductive method : Type :=
| StepClockwise (steps : Z)
| StepCounterclockwise (steps : Z)
| TurnPowerOff.

Definition invoke (m : method) : M state unit :=
  match m with
  | StepClockwise steps => step_clockwise steps
  | StepCounterclockwise steps => step_counterclockwise steps
  | TurnPowerOff => turn_power_off
  end.

Definition invoke_all (ms : list method) (s : state) : state :=
  fold_left (fun s m => snd (invoke m s)) ms s.

(** ** Reading the record of calls *)

Definition is_write (e : call) : bool :=
  match e with
  | WriteToDIO _ _ => true
  | _ => false
  end.

Definition is_configure (e : call) : bool :=
  match e with
  | SetDIOToOutput _ _ => true
  | _ => false
  end.

Definition count_writes (es : list call) : nat :=
  List.length (filter is_write es).

(** The calls made between world [w] and a later world [w']. *)
Definition new_calls (w w' : world) : list call :=
  skipn (List.length (calls w)) (calls w').

(** Value and mask of the most recent [write_to_DIO], if any. *)
Fixpoint last_write (es : list call) : option (Z * Z) :=
  match es with
  | [] => None
  | e :: t =>
      match last_write t with
      | Some p => Some p
      | None => match e with
                | WriteToDIO v m => Some (v, m)
                | _ => None
                end
      end
  end.

End Controller.

(** ** Vocabulary of the properties *)

(** The two rotations as functions on the list. *)
Definition rotl (l : list Z) : list Z :=
  match l with
  | [] => []
  | x :: t => t ++ [x]
  end.

Definition rotr (l : list Z) : list Z :=
  match l with
  | [] => []
  | _ :: _ => last l 0 :: removelast l
  end.

Fixpoint rotate_by (rot : list Z -> list Z) (n : nat) (l : list Z) : list Z :=
  match n with
  | O => l
  | S k => rotate_by rot k (rot l)
  end.

(** The write of pattern [x] at nibble [n]. *)
Definition nibble_write (n x : Z) : call :=
  WriteToDIO (Z.shiftl x (4 * n)) (Z.shiftl 0xf (4 * n)).

(** The calls of [n] iterations of the step loop started with states [l], at
    nibble [nib] and with step time [st]. *)
Fixpoint loop_calls (rot : list Z -> list Z) (nib : Z) (st : Q)
    (n : nat) (l : list Z) : list call :=
  match n with
  | O => []
  | S k => nibble_write nib (hd 0 (rot l)) :: Sleep st
             :: loop_calls rot nib st k (rot l)
  end.

(** The calls of a whole step method. *)
Definition turn_calls (rot : list Z -> list Z) (c : Portescap20MO20DIU)
    (n : nat) : list call :=
  nibble_write (nibble c) (hd 0 (states c))
    :: loop_calls rot (nibble c) (step_time c) n (states c)
    ++ [Sleep (settle_time c); nibble_write (nibble c) (off c)].

(** The preconditions of the data model under which no method raises. *)
Record ready (c : Portescap20MO20DIU) : Prop := {
  ready_nibble : 0 <= nibble c;
  ready_states : states c <> [];
  ready_step_time : (0 <= step_time c)%Q;
  ready_settle_time : (0 <= settle_time c)%Q
}.

(** The two objects the constructor can build. *)
Definition ntype_object (n : Z) (st se : Q) : Portescap20MO20DIU :=
  {| nibble := n; step_time := st; settle_time := se;
     states := [0x6; 0xa; 0x9; 0x5]; off := 0x0 |}.

Definition ptype_object (n : Z) (st se : Q) : Portescap20MO20DIU :=
  {| nibble := n; step_time := st; settle_time := se;
     states := [0x9; 0x5; 0x6; 0xa]; off := 0xf |}.

Section Vocabulary.

Context {D : Type} {dev : DigitalIO D}.

Local Abbreviation world := (@world D).
Local Abbreviation state := (@state D).

(** A call the controller at nibble [n] may make after construction: a sleep,
    or a write under the nibble's own mask. *)
Definition own_call (n : Z) (e : call) : Prop :=
  match e with
  | WriteToDIO _ m => m = Z.shiftl 0xf (4 * n)
  | Sleep _ => True
  | _ => False
  end.

Record evolves (s s' : state) : Prop := {
  ev_nibble : nibble (fst s') = nibble (fst s);
  ev_off : off (fst s') = off (fst s);
  ev_step_time : step_time (fst s') = step_time (fst s);
  ev_settle_time : settle_time (fst s') = settle_time (fst s);
  ev_states : Permutation (states (fst s)) (states (fst s'));
  ev_calls : exists es, snd s' = emits es (snd s)
                        /\ Forall (own_call (nibble (fst s))) es
}.

Definition no_Error {A} (r : res A) : Prop :=
  match r with
  | Raise (Error _) => False
  | _ => True
  end.

(** [tame m]: from any state, [m] ends (normally or not) in a state that
    evolved from the first, and never with [Error]. *)
Definition tame {A} (m : M state A) : Prop :=
  forall s, evolves s (snd (m s)) /\ no_Error (fst (m s)).

(** [m] reads the state only. *)
Definition reads {A} (m : M state A) : Prop :=
  forall s, snd (m s) = s /\ no_Error (fst (m s)).

(** The skeleton the two step methods share, [rotate] being the one statement
    in which they differ. *)
Definition turn (rotate : M state unit) (steps : Z) : M state unit :=
  (write_nibble states_0 ;;
   for_range (range_len steps)
     (rotate ;;
      write_nibble states_0 ;;
      t <- gets (fun s => step_time (self_of s)) ;;
      time_sleep t) ;;
   t <- gets (fun s => settle_time (self_of s)) ;;
   time_sleep t ;;
   write_nibble (gets (fun s => off (self_of s))))%py.

End Vocabulary.

(** ** Vocabulary of the further properties *)

(** [l'] is [l] turned round some number of places. *)
Definition rotation (l l' : list Z) : Prop :=
  exists k : nat, l' = rotate_by rotl k l.

(** Seconds slept in a record of calls. *)
Fixpoint sleep_total (es : list call) : Q :=
  match es with
  | [] => 0
  | Sleep t :: es' => t + sleep_total es'
  | _ :: es' => sleep_total es'
  end.

(** The same call with every driven line of a write inverted. *)
Definition invert_call (e : call) : call :=
  match e with
  | WriteToDIO v m => WriteToDIO (Z.lxor v m) m
  | _ => e
  end.

Definition write_or_sleep (e : call) : bool :=
  match e with
  | WriteToDIO _ _ | Sleep _ => true
  | _ => false
  end.

(** [e], if a write, carries one of the patterns [ps] shifted to nibble [n]. *)
Definition writes_pattern_of (n : Z) (ps : list Z) (e : call) : Prop :=
  forall v m, e = WriteToDIO v m -> exists x, In x ps /\ v = Z.shiftl x (4 * n).

Section FurtherVocabulary.

Context {D : Type} {dev : DigitalIO D}.

Local Abbreviation state := (@state D).

(** [m] leaves [self] as it found it. *)
Definition fixes_self {A} (m : M state A) : Prop :=
  forall s, fst (snd (m s)) = fst s.

(** [m] takes [self] to an object related to it by [P]. *)
Definition keeps (P : Portescap20MO20DIU -> Portescap20MO20DIU -> Prop)
    {A} (m : M state A) : Prop :=
  forall s, P (fst s) (fst (snd (m s))).

(** Same object but for the states list, which is turned round. *)
Definition turned (c c' : Portescap20MO20DIU) : Prop :=
  rotation (states c) (states c').

End FurtherVocabulary.

(** ** A bench set-up: a reachable LabJack with all lines low, and an n-type
    motor on nibble 1 *)

Definition bench_device : labjack := {| probe := 1; direction := 0; level := 0 |}.

Definition bench_world : @world labjack := {| device := bench_device; calls := [] |}.

Definition dead_world : @world labjack :=
  {| device := {| probe := 0; direction := 0; level := 0 |}; calls := [] |}.

Definition bench_motor : Portescap20MO20DIU := ntype_object 1 (1 # 10) (1 # 10).

(** * Properties *)

Section Invariants.

Context {D : Type} {dev : DigitalIO D}.

Local Abbreviation world := (@world D).
Local Abbreviation state := (@state D).

(** ** The record of calls *)

Lemma emits_app (es fs : list call) (w : world) :
  emits (es ++ fs) w = emits fs (emits es w).
Proof. unfold emits. apply fold_left_app. Qed.

Lemma calls_emits (es : list call) (w : world) :
  calls (emits es w) = calls w ++ es.
Proof.
  revert w. induction es as [|e es IH]; intros w; simpl.
  - now rewrite app_nil_r.
  - rewrite IH. simpl. now rewrite <- app_assoc.
Qed.

Lemma device_emits (es : list call) (w : world) :
  device (emits es w) = fold_left (fun d e => apply_call e d) es (device w).
Proof.
  revert w. induction es as [|e es IH]; intros w; simpl; [reflexivity|].
  now rewrite IH.
Qed.

Lemma new_calls_emits (es : list call) (w : world) :
  new_calls w (emits es w) = es.
Proof.
  unfold new_calls. rewrite calls_emits.
  rewrite skipn_app, skipn_all, Nat.sub_diag. reflexivity.
Qed.

Lemma count_writes_app (es fs : list call) :
  count_writes (es ++ fs) = (count_writes es + count_writes fs)%nat.
Proof. unfold count_writes. now rewrite filter_app, length_app. Qed.

Lemma last_write_snoc (es : list call) (v m : Z) :
  last_write (es ++ [WriteToDIO v m]) = Some (v, m).
Proof.
  induction es as [|e es IH]; simpl; [reflexivity|]. now rewrite IH.
Qed.

Lemma evolves_refl (s : state) : evolves s s.
Proof.
  split; try reflexivity. exists []. split; [reflexivity | constructor].
Qed.

Lemma evolves_trans (s1 s2 s3 : state) :
  evolves s1 s2 -> evolves s2 s3 -> evolves s1 s3.
Proof.
  intros [n1 o1 t1 u1 p1 (es & E1 & F1)] [n2 o2 t2 u2 p2 (fs & E2 & F2)].
  split; try congruence.
  - now transitivity (states (fst s2)).
  - exists (es ++ fs). split.
    + rewrite emits_app. congruence.
    + apply Forall_app. split; [assumption|]. now rewrite <- n1.
Qed.

Lemma tame_reads {A} (m : M state A) : reads m -> tame m.
Proof.
  intros H s. destruct (H s) as [E N]. rewrite E. split; [apply evolves_refl | exact N].
Qed.

Lemma tame_bind {A B} (m : M state A) (f : A -> M state B) :
  tame m -> (forall a, tame (f a)) -> tame (bind m f).
Proof.
  intros Hm Hf s. unfold bind. specialize (Hm s).
  destruct (m s) as [[a|e] s1]; simpl in Hm.
  - destruct (Hf a s1) as [E N]. split; [|exact N].
    eapply evolves_trans; [apply Hm | exact E].
  - exact Hm.
Qed.

Lemma tame_for_range (n : nat) (body : M state unit) :
  tame body -> tame (for_range n body).
Proof.
  intros Hb. induction n as [|n IH]; simpl.
  - intros s. split; [apply evolves_refl | exact I].
  - apply tame_bind; [exact Hb | intros _; exact IH].
Qed.

Lemma reads_gets {A} (f : state -> A) : reads (gets f).
Proof. intros s. split; [reflexivity | exact I]. Qed.

Lemma reads_states_0 : reads (D:=D) states_0.
Proof.
  intros s. unfold states_0, bind, gets, liftR.
  destruct (states (self_of s)); simpl; auto.
Qed.

Lemma tame_time_sleep (t : Q) : tame (time_sleep t).
Proof.
  intros s. unfold time_sleep. destruct (Qle_bool 0 t); simpl.
  - split; [|exact I]. split; try reflexivity.
    exists [Sleep t]. split; [reflexivity | repeat constructor].
  - split; [apply evolves_refl | exact I].
Qed.

Lemma tame_write_nibble (x : M state Z) : reads x -> tame (write_nibble x).
Proof.
  intros Hx s. unfold write_nibble, bind. destruct (Hx s) as [E N].
  destruct (x s) as [[v|e] s1]; simpl in E, N; subst s1.
  - unfold gets, liftR, py_lshift, self_of.
    destruct (4 * nibble (fst s) <? 0); simpl.
    + split; [apply evolves_refl | exact I].
    + split; [|exact I]. split; try reflexivity.
      eexists [WriteToDIO _ _]. split; [reflexivity|].
      repeat constructor.
  - simpl. split; [apply evolves_refl | exact N].
Qed.

Lemma tame_rotate_clockwise : tame (D:=D) rotate_clockwise.
Proof.
  intros s. unfold rotate_clockwise, bind, gets, liftR, self_of.
  destruct (states (fst s)) as [|x t] eqn:El; simpl.
  - split; [apply evolves_refl | exact I].
  - split; [|exact I]. split; try reflexivity.
    + simpl. rewrite El. unfold py_append. apply Permutation_cons_append.
    + exists []. split; [reflexivity | constructor].
Qed.

Lemma tame_rotate_counterclockwise : tame (D:=D) rotate_counterclockwise.
Proof.
  intros s. unfold rotate_counterclockwise, bind, gets, liftR, self_of.
  destruct (states (fst s)) as [|x t] eqn:El; simpl py_pop; cbv iota beta.
  - split; [apply evolves_refl | exact I].
  - split; [|exact I]. split; try reflexivity.
    + simpl fst; simpl snd. cbn [put_states modify set_states states fst snd].
      rewrite El. unfold py_insert0.
      rewrite (app_removelast_last 0 (l := x :: t)) at 1 by discriminate.
      symmetry. apply Permutation_cons_append.
    + exists []. split; [reflexivity | constructor].
Qed.

(** Composite computations are taken apart down to the statements above; the
    rule for [bind] comes last, since [write_nibble] is itself a [bind]. *)
Ltac tame_compose :=
  repeat first
    [ apply tame_for_range
    | apply tame_write_nibble
    | apply reads_states_0
    | apply reads_gets
    | apply tame_reads, reads_gets
    | apply tame_time_sleep
    | apply tame_rotate_clockwise
    | apply tame_rotate_counterclockwise
    | apply tame_bind; [|intros ?] ].

Lemma tame_step_clockwise (steps : Z) : tame (D:=D) (step_clockwise steps).
Proof.
  unfold step_clockwise. tame_compose.
Qed.

Lemma tame_step_counterclockwise (steps : Z) :
  tame (D:=D) (step_counterclockwise steps).
Proof.
  unfold step_counterclockwise. tame_compose.
Qed.

Lemma tame_turn_power_off : tame (D:=D) turn_power_off.
Proof. apply tame_write_nibble, reads_gets. Qed.

Lemma tame_invoke (m : method) : tame (D:=D) (invoke m).
Proof.
  destruct m; simpl.
  - apply tame_step_clockwise.
  - apply tame_step_counterclockwise.
  - apply tame_turn_power_off.
Qed.

Lemma evolves_invoke_all (ms : list method) (s : state) :
  evolves s (invoke_all ms s).
Proof.
  revert s. induction ms as [|m ms IH]; intros s; simpl.
  - apply evolves_refl.
  - eapply evolves_trans; [apply (tame_invoke m s) | apply IH].
Qed.

End Invariants.

(** ** Runs of a well-formed object *)

Lemma rotl_nonempty (l : list Z) : l <> [] -> rotl l <> [].
Proof. destruct l as [|x [|y t]]; simpl; intros H; congruence. Qed.

Lemma rotr_nonempty (l : list Z) : l <> [] -> rotr l <> [].
Proof. destruct l; simpl; intros H; congruence. Qed.

Lemma rotr_rotl (l : list Z) : rotr (rotl l) = l.
Proof.
  destruct l as [|x t]; simpl; [reflexivity|].
  unfold rotr. destruct (t ++ [x]) eqn:E.
  - now destruct t.
  - rewrite <- E, last_last, removelast_last. reflexivity.
Qed.

Lemma rotl_rotr (l : list Z) : rotl (rotr l) = l.
Proof.
  destruct l as [|x t]; simpl; [reflexivity|].
  symmetry. apply (app_removelast_last 0 (l := x :: t)). discriminate.
Qed.

Lemma rotl_4 (a b c d : Z) : rotate_by rotl 4 [a; b; c; d] = [a; b; c; d].
Proof. reflexivity. Qed.

Lemma rotr_4 (a b c d : Z) : rotate_by rotr 4 [a; b; c; d] = [a; b; c; d].
Proof. reflexivity. Qed.

Lemma set_states_id (c : Portescap20MO20DIU) : set_states (states c) c = c.
Proof. now destruct c. Qed.

Lemma count_writes_loop_calls rot nib st n l :
  count_writes (loop_calls rot nib st n l) = n.
Proof.
  revert l. induction n as [|n IH]; intros l; [reflexivity|].
  change (S (count_writes (loop_calls rot nib st n (rot l))) = S n).
  now rewrite IH.
Qed.

Lemma count_writes_turn_calls rot c n :
  count_writes (turn_calls rot c n) = (n + 2)%nat.
Proof.
  unfold turn_calls.
  unfold count_writes. cbn [filter is_write nibble_write List.length].
  rewrite filter_app, length_app.
  fold (count_writes (loop_calls rot (nibble c) (step_time c) n (states c))).
  rewrite count_writes_loop_calls. cbn. lia.
Qed.

Lemma last_write_turn_calls (pre : list call) rot c n :
  last_write (pre ++ turn_calls rot c n)
  = Some (Z.shiftl (off c) (4 * nibble c), Z.shiftl 0xf (4 * nibble c)).
Proof.
  unfold turn_calls.
  change [Sleep (settle_time c); nibble_write (nibble c) (off c)]
    with ([Sleep (settle_time c)] ++ [nibble_write (nibble c) (off c)]).
  rewrite app_comm_cons, !app_assoc. apply last_write_snoc.
Qed.

Section Runs.

Context {D : Type} {dev : DigitalIO D}.

Local Abbreviation world := (@world D).
Local Abbreviation state := (@state D).

Lemma write_nibble_states_0_run (c : Portescap20MO20DIU) (w : world) :
  0 <= nibble c -> states c <> [] ->
  write_nibble states_0 (c, w)
  = (Ok tt, (c, emit (nibble_write (nibble c) (hd 0 (states c))) w)).
Proof.
  intros Hn Hs.
  assert (E : (4 * nibble c <? 0) = false) by (apply Z.ltb_ge; lia).
  unfold write_nibble, states_0, bind, gets, liftR, py_lshift, self_of.
  cbn [fst]. destruct (states c) as [|x t]; [congruence|].
  cbn [py_index0 hd]. rewrite E. reflexivity.
Qed.

Lemma write_nibble_off_run (c : Portescap20MO20DIU) (w : world) :
  0 <= nibble c ->
  write_nibble (gets (fun s => off (self_of s))) (c, w)
  = (Ok tt, (c, emit (nibble_write (nibble c) (off c)) w)).
Proof.
  intros Hn.
  assert (E : (4 * nibble c <? 0) = false) by (apply Z.ltb_ge; lia).
  unfold write_nibble, bind, gets, liftR, py_lshift, self_of.
  cbn [fst]. rewrite E. reflexivity.
Qed.

Lemma time_sleep_run (t : Q) (s : state) :
  (0 <= t)%Q -> time_sleep t s = (Ok tt, (fst s, emit (Sleep t) (snd s))).
Proof.
  intros Ht. unfold time_sleep. apply Qle_bool_iff in Ht. now rewrite Ht.
Qed.

Lemma rotate_clockwise_run (c : Portescap20MO20DIU) (w : world) :
  states c <> [] ->
  rotate_clockwise (c, w) = (Ok tt, (set_states (rotl (states c)) c, w)).
Proof.
  intros Hs. unfold rotate_clockwise, bind, gets, liftR, self_of. simpl fst.
  destruct (states c); [congruence | reflexivity].
Qed.

Lemma rotate_counterclockwise_run (c : Portescap20MO20DIU) (w : world) :
  states c <> [] ->
  rotate_counterclockwise (c, w) = (Ok tt, (set_states (rotr (states c)) c, w)).
Proof.
  intros Hs. unfold rotate_counterclockwise, bind, gets, liftR, self_of. simpl fst.
  destruct (states c); [congruence | reflexivity].
Qed.

Lemma step_clockwise_turn (steps : Z) :
  step_clockwise steps = turn rotate_clockwise steps.
Proof. reflexivity. Qed.

Lemma step_counterclockwise_turn (steps : Z) :
  step_counterclockwise steps = turn rotate_counterclockwise steps.
Proof. reflexivity. Qed.

Variable rotate : M state unit.
Variable rot : list Z -> list Z.
Hypothesis rot_nonempty : forall l, l <> [] -> rot l <> [].
Hypothesis rotate_run : forall c w,
  states c <> [] -> rotate (c, w) = (Ok tt, (set_states (rot (states c)) c, w)).

Lemma loop_run (n : nat) (c : Portescap20MO20DIU) (w : world) :
  ready c ->
  for_range n
    (rotate ;;
     write_nibble states_0 ;;
     t <- gets (fun s => step_time (self_of s)) ;;
     time_sleep t)%py (c, w)
  = (Ok tt, (set_states (rotate_by rot n (states c)) c,
             emits (loop_calls rot (nibble c) (step_time c) n (states c)) w)).
Proof.
  revert c w. induction n as [|n IH]; intros c w R.
  - simpl. now rewrite set_states_id.
  - destruct R as [Hn Hs Ht Hu].
    cbn [for_range]. unfold bind at 1. unfold bind at 1.
    rewrite rotate_run by assumption.
    unfold bind at 1.
    rewrite write_nibble_states_0_run by (simpl; auto).
    unfold bind at 1, gets at 1.
    rewrite time_sleep_run by (simpl; assumption).
    cbn [fst snd self_of].
    rewrite IH by (split; simpl; auto).
    reflexivity.
Qed.

Lemma turn_run (steps : Z) (c : Portescap20MO20DIU) (w : world) :
  ready c ->
  turn rotate steps (c, w)
  = (Ok tt, (set_states (rotate_by rot (range_len steps) (states c)) c,
             emits (turn_calls rot c (range_len steps)) w)).
Proof.
  intros R. pose proof R as [Hn Hs Ht Hu]. unfold turn.
  unfold bind at 1. rewrite write_nibble_states_0_run by assumption.
  unfold bind at 1. rewrite loop_run by assumption.
  unfold bind at 1, gets at 1.
  unfold bind at 1. rewrite time_sleep_run by (simpl; assumption).
  cbn [fst snd self_of].
  rewrite write_nibble_off_run by (simpl; assumption).
  unfold turn_calls. simpl emits at 2. rewrite emits_app. reflexivity.
Qed.

(** With an empty range the loop body never runs, whatever [rotate] is and
    whatever the step time. *)
Lemma turn_run_empty (steps : Z) (c : Portescap20MO20DIU) (w : world) :
  range_len steps = O ->
  0 <= nibble c -> states c <> [] -> (0 <= settle_time c)%Q ->
  turn rotate steps (c, w)
  = (Ok tt, (c, emits [nibble_write (nibble c) (hd 0 (states c));
                       Sleep (settle_time c);
                       nibble_write (nibble c) (off c)] w)).
Proof.
  intros E Hn Hs Hu. unfold turn. rewrite E.
  unfold bind at 1. rewrite write_nibble_states_0_run by assumption.
  cbn [for_range]. unfold bind at 1, ret at 1.
  unfold bind at 1, gets at 1.
  unfold bind at 1. rewrite time_sleep_run by (simpl; assumption).
  cbn [fst snd self_of].
  rewrite write_nibble_off_run by assumption. reflexivity.
Qed.

End Runs.

Section Methods.

Context {D : Type} {dev : DigitalIO D}.

Local Abbreviation world := (@world D).
Local Abbreviation state := (@state D).

Lemma step_clockwise_run (steps : Z) (c : Portescap20MO20DIU) (w : world) :
  ready c ->
  step_clockwise steps (c, w)
  = (Ok tt, (set_states (rotate_by rotl (range_len steps) (states c)) c,
             emits (turn_calls rotl c (range_len steps)) w)).
Proof.
  rewrite step_clockwise_turn.
  apply turn_run; [exact rotl_nonempty | exact rotate_clockwise_run].
Qed.

Lemma step_counterclockwise_run (steps : Z) (c : Portescap20MO20DIU) (w : world) :
  ready c ->
  step_counterclockwise steps (c, w)
  = (Ok tt, (set_states (rotate_by rotr (range_len steps) (states c)) c,
             emits (turn_calls rotr c (range_len steps)) w)).
Proof.
  rewrite step_counterclockwise_turn.
  apply turn_run; [exact rotr_nonempty | exact rotate_counterclockwise_run].
Qed.

Lemma init_run (flag : string) (n : Z) (st se : Q) (w : world) :
  check_connection (device w) <> 0 -> 0 <= n ->
  __init__ flag n st se w
  = (Ok (if String.eqb flag "ptype" then ptype_object n st se
         else ntype_object n st se),
     emits [CheckConnection;
            SetDIOToOutput (Z.shiftl 0xf (4 * n)) (Z.shiftl 0xf (4 * n))] w).
Proof.
  intros Hc Hn.
  assert (E : (4 * n <? 0) = false) by (apply Z.ltb_ge; lia).
  apply Z.eqb_neq in Hc.
  unfold __init__, bind, liftR, py_lshift, modify. rewrite Hc, E.
  unfold ret. destruct (String.eqb flag "ptype"); reflexivity.
Qed.

Lemma init_unreachable (flag : string) (n : Z) (st se : Q) (w : world) :
  check_connection (device w) = 0 ->
  __init__ flag n st se w = (Raise (Error not_responding), emit CheckConnection w).
Proof.
  intros Hc. unfold __init__, bind. rewrite Hc. reflexivity.
Qed.

Lemma init_Ok_inv (flag : string) (n : Z) (st se : Q) (w w0 : world)
    (c0 : Portescap20MO20DIU) :
  __init__ flag n st se w = (Ok c0, w0) ->
  c0 = ptype_object n st se \/ c0 = ntype_object n st se.
Proof.
  unfold __init__, bind, liftR, py_lshift, modify, raise, ret.
  destruct (check_connection (device w) =? 0); [discriminate|].
  destruct (4 * n <? 0); [discriminate|].
  destruct (String.eqb flag "ptype"); intros H; inversion H; auto.
Qed.

Lemma init_Ok_nibble (flag : string) (n : Z) (st se : Q) (w w0 : world)
    (c0 : Portescap20MO20DIU) :
  __init__ flag n st se w = (Ok c0, w0) -> 0 <= n.
Proof.
  unfold __init__, bind, liftR, py_lshift, raise, ret.
  destruct (check_connection (device w) =? 0); [discriminate|].
  destruct (4 * n <? 0) eqn:E; [discriminate|].
  intros _. apply Z.ltb_ge in E. lia.
Qed.

(** Every state a caller can reach from a construction with non-negative
    delays is ready to step. *)
Lemma ready_invoke_all (flag : string) (n : Z) (st se : Q) (w w0 : world)
    (c0 : Portescap20MO20DIU) (ms : list method) :
  __init__ flag n st se w = (Ok c0, w0) ->
  (0 <= st)%Q -> (0 <= se)%Q ->
  ready (fst (invoke_all ms (c0, w0))).
Proof.
  intros Hi Ht Hu. pose proof (init_Ok_nibble _ _ _ _ _ _ _ Hi) as Hn.
  destruct (evolves_invoke_all ms (c0, w0)) as [En _ Et Eu P _].
  cbn [fst] in En, Et, Eu, P.
  assert (H0 : nibble c0 = n /\ step_time c0 = st /\ settle_time c0 = se
               /\ states c0 <> [])
    by (destruct (init_Ok_inv _ _ _ _ _ _ _ Hi); subst c0; cbn;
        repeat split; discriminate).
  destruct H0 as (H1 & H2 & H3 & H4).
  split.
  - rewrite En, H1. exact Hn.
  - intros E. rewrite E in P. apply H4. now apply Permutation_nil, Permutation_sym.
  - rewrite Et, H2. exact Ht.
  - rewrite Eu, H3. exact Hu.
Qed.

End Methods.

(** ** Runs on the bench *)

Example bench_step_clockwise_2 :
  step_clockwise 2 (bench_motor, bench_world)
  = (Ok tt,
     (set_states [0x9; 0x5; 0x6; 0xa] bench_motor,
      {| device := bench_device;
         calls := [WriteToDIO 0x60 0xf0;
                   WriteToDIO 0xa0 0xf0; Sleep (1 # 10);
                   WriteToDIO 0x90 0xf0; Sleep (1 # 10);
                   Sleep (1 # 10); WriteToDIO 0x00 0xf0] |})).
Proof. reflexivity. Qed.

Example bench_step_counterclockwise_1 :
  step_counterclockwise 1 (bench_motor, bench_world)
  = (Ok tt,
     (set_states [0x5; 0x6; 0xa; 0x9] bench_motor,
      {| device := bench_device;
         calls := [WriteToDIO 0x60 0xf0;
                   WriteToDIO 0x50 0xf0; Sleep (1 # 10);
                   Sleep (1 # 10); WriteToDIO 0x00 0xf0] |})).
Proof. reflexivity. Qed.

(** A p-type motor on nibble 2 of a device whose other lines carry 0xa.cd:
    only the third hexadecimal digit of the level moves. *)
Example shared_device_step :
  level (device (snd (snd (step_clockwise 1
    (ptype_object 2 0 0,
     {| device := {| probe := 1; direction := 0xffff; level := 0xabcd |};
        calls := [] |})))))
  = 0xafcd.
Proof. reflexivity. Qed.

(** A negative step time stops the method at the first sleep of the loop, the
    rotation and the two writes before it done. *)
Example negative_step_time_raises :
  step_clockwise 2 (ntype_object 1 (-1 # 10) (1 # 10), bench_world)
  = (Raise ValueError,
     (set_states [0xa; 0x9; 0x5; 0x6] (ntype_object 1 (-1 # 10) (1 # 10)),
      {| device := {| probe := 1; direction := 0; level := 0xa0 |};
         calls := [WriteToDIO 0x60 0xf0; WriteToDIO 0xa0 0xf0] |})).
Proof. reflexivity. Qed.

(** A negative nibble stops the constructor at its first shift. *)
Example negative_nibble_raises :
  __init__ "ntype" (-1) (1 # 10) (1 # 10) bench_world
  = (Raise ValueError, emit CheckConnection bench_world).
Proof. reflexivity. Qed.

Example bench_init_ptype_3 :
  __init__ "ptype" 3 (1 # 10) (1 # 10) bench_world
  = (Ok (ptype_object 3 (1 # 10) (1 # 10)),
     {| device := {| probe := 1; direction := 0xf000; level := 0xf000 |};
        calls := [CheckConnection; SetDIOToOutput 0xf000 0xf000] |}).
Proof. reflexivity. Qed.

(** * The specification's claims *)

Section Claims.

Context {D : Type} {dev : DigitalIO D}.

Local Abbreviation world := (@world D).
Local Abbreviation state := (@state D).

(** C1. For every [steps >= 0], [step_clockwise(steps)] and
    [step_counterclockwise(steps)] return normally having made, in order: the
    write re-asserting the current phase, the calls of the step loop, which
    hold exactly [steps] writes, the settle sleep, and the de-energize write;
    [steps + 2] writes in all.  With [steps = 0] the calls are the assert
    write, the settle sleep and the de-energize write. *)
Theorem step_issues_steps_plus_2_writes
    (steps : Z) (c : Portescap20MO20DIU) (w : world) :
  0 <= steps -> ready c ->
  let cw := step_clockwise steps (c, w) in
  let ccw := step_counterclockwise steps (c, w) in
  let assert_write := nibble_write (nibble c) (hd 0 (states c)) in
  let tail := [Sleep (settle_time c); nibble_write (nibble c) (off c)] in
  let cw_loop := loop_calls rotl (nibble c) (step_time c) (range_len steps) (states c) in
  let ccw_loop := loop_calls rotr (nibble c) (step_time c) (range_len steps) (states c) in
  (fst cw = Ok tt
   /\ new_calls w (snd (snd cw)) = assert_write :: cw_loop ++ tail
   /\ Z.of_nat (count_writes cw_loop) = steps
   /\ Z.of_nat (count_writes (new_calls w (snd (snd cw)))) = steps + 2)
  /\ (fst ccw = Ok tt
      /\ new_calls w (snd (snd ccw)) = assert_write :: ccw_loop ++ tail
      /\ Z.of_nat (count_writes ccw_loop) = steps
      /\ Z.of_nat (count_writes (new_calls w (snd (snd ccw)))) = steps + 2)
  /\ (steps = 0 ->
      new_calls w (snd (snd cw)) = assert_write :: tail
      /\ new_calls w (snd (snd ccw)) = assert_write :: tail).
Proof.
  intros Hs R. cbv zeta.
  rewrite step_clockwise_run, step_counterclockwise_run by assumption.
  cbn [fst snd]. rewrite !new_calls_emits, !count_writes_turn_calls.
  rewrite !count_writes_loop_calls.
  unfold range_len. rewrite Nat2Z.inj_add, Z2Nat.id by assumption.
  repeat split; try reflexivity.
  - subst steps. reflexivity.
  - subst steps. reflexivity.
Qed.

(** C2. Constructing with n-type polarity gives states [0x6, 0xa, 0x9, 0x5]
    and off pattern 0x0; with p-type polarity, states [0x9, 0x5, 0x6, 0xa]
    and off pattern 0xf. *)
Theorem polarity_selection (n : Z) (st se : Q) (w : world) :
  check_connection (device w) <> 0 -> 0 <= n ->
  fst (__init__ "ntype" n st se w)
  = Ok {| nibble := n; step_time := st; settle_time := se;
          states := [0x6; 0xa; 0x9; 0x5]; off := 0x0 |}
  /\ fst (__init__ "ptype" n st se w)
     = Ok {| nibble := n; step_time := st; settle_time := se;
             states := [0x9; 0x5; 0x6; 0xa]; off := 0xf |}.
Proof.
  intros Hc Hn. rewrite !init_run by assumption. split; reflexivity.
Qed.

(** C3. Whatever methods are called on a constructed object and in whatever
    order, its states list keeps length 4 and is a permutation of the list it
    was constructed with. *)
Theorem ring_invariant (flag : string) (n : Z) (st se : Q) (w w0 : world)
    (c0 : Portescap20MO20DIU) (ms : list method) :
  __init__ flag n st se w = (Ok c0, w0) ->
  let c := fst (invoke_all ms (c0, w0)) in
  List.length (states c) = 4%nat /\ Permutation (states c0) (states c).
Proof.
  intros Hi c.
  pose proof (ev_states _ _ (evolves_invoke_all ms (c0, w0))) as P.
  cbn [fst] in P. fold c in P. split; [|exact P].
  rewrite <- (Permutation_length P).
  destruct (init_Ok_inv _ _ _ _ _ _ _ Hi); subst c0; reflexivity.
Qed.

(** C4. On an object ready to step, one clockwise step followed by one
    counter-clockwise step, or the other way round, both return normally,
    leave the states list as it was, and the most recent device write is the
    off pattern shifted to the nibble, under the nibble's mask. *)
Theorem step_inverse (c : Portescap20MO20DIU) (w : world) :
  ready c ->
  let off_write := Some (Z.shiftl (off c) (4 * nibble c), Z.shiftl 0xf (4 * nibble c)) in
  let cw := step_clockwise 1 (c, w) in
  let cw_ccw := step_counterclockwise 1 (snd cw) in
  let ccw := step_counterclockwise 1 (c, w) in
  let ccw_cw := step_clockwise 1 (snd ccw) in
  (fst cw = Ok tt /\ fst cw_ccw = Ok tt
   /\ states (fst (snd cw_ccw)) = states c
   /\ last_write (calls (snd (snd cw_ccw))) = off_write)
  /\ (fst ccw = Ok tt /\ fst ccw_cw = Ok tt
      /\ states (fst (snd ccw_cw)) = states c
      /\ last_write (calls (snd (snd ccw_cw))) = off_write).
Proof.
  intros R. cbv zeta. destruct R as [Hn Hs Ht Hu].
  assert (R : ready c) by (split; assumption).
  assert (Rl : ready (set_states (rotl (states c)) c))
    by (split; cbn; auto using rotl_nonempty).
  assert (Rr : ready (set_states (rotr (states c)) c))
    by (split; cbn; auto using rotr_nonempty).
  rewrite (step_clockwise_run 1 c), (step_counterclockwise_run 1 c) by assumption.
  cbn [fst snd range_len Z.to_nat Pos.to_nat Pos.iter_op Nat.add rotate_by].
  rewrite step_counterclockwise_run, step_clockwise_run by assumption.
  cbn [fst snd range_len Z.to_nat Pos.to_nat Pos.iter_op Nat.add rotate_by
       set_states states nibble off].
  rewrite rotr_rotl, rotl_rotr, !calls_emits.
  repeat split;
    apply (last_write_turn_calls _ _ (set_states _ c)).
Qed.

(** C5. A fresh n-type object on nibble 1 with both delays 0: after
    [step_clockwise(4)] the states list is [0x6, 0xa, 0x9, 0x5] again, and the
    most recent device write has value [0x0 << 4 = 0x00] and mask [0xf0]. *)
Theorem full_cycle_scenario (w : world) :
  check_connection (device w) <> 0 ->
  let built := __init__ "ntype" 1 0 0 w in
  exists c0 : Portescap20MO20DIU,
    fst built = Ok c0
    /\ let run := step_clockwise 4 (c0, snd built) in
       fst run = Ok tt
       /\ states (fst (snd run)) = [0x6; 0xa; 0x9; 0x5]
       /\ last_write (calls (snd (snd run))) = Some (0x00, 0xf0)
       /\ Z.shiftl 0x0 4 = 0x00.
Proof.
  intros Hc. cbv zeta. rewrite init_run by (assumption || lia).
  cbn [String.eqb Ascii.eqb Bool.eqb fst snd]. eexists. split; [reflexivity|].
  assert (R : ready (ntype_object 1 0 0))
    by (split; cbn; try lia; try discriminate; apply Qle_refl).
  rewrite step_clockwise_run by exact R.
  cbn [fst snd]. rewrite calls_emits. repeat split.
  apply (last_write_turn_calls _ rotl (ntype_object 1 0 0)).
Qed.

(** C7. When the health check answers 0, the constructor raises [Error] with
    the not-responding message: it yields no object, its only call is the
    check itself, so the device is never configured and is left as it was.
    [Error] comes from nowhere else: the constructor raises it only on a zero
    answer, and no method raises it. *)
Theorem unreachable_device_raises (flag : string) (n : Z) (st se : Q)
    (w : world) (m : method) (s : state) :
  (check_connection (device w) = 0 ->
   let built := __init__ flag n st se w in
   fst built = Raise (Error not_responding)
   /\ new_calls w (snd built) = [CheckConnection]
   /\ filter is_configure (new_calls w (snd built)) = []
   /\ device (snd built) = device w)
  /\ (forall msg, fst (__init__ flag n st se w) = Raise (Error msg) ->
                  check_connection (device w) = 0)
  /\ (forall msg, fst (invoke m s) <> Raise (Error msg)).
Proof.
  split; [|split].
  - intros Hc. cbv zeta. rewrite init_unreachable by assumption.
    cbn [fst snd]. change (emit CheckConnection w) with (emits [CheckConnection] w).
    rewrite new_calls_emits. repeat split.
  - intros msg. unfold __init__, bind, liftR, py_lshift, modify, raise, ret.
    destruct (check_connection (device w) =? 0) eqn:E.
    + intros _. now apply Z.eqb_eq.
    + destruct (4 * n <? 0); [discriminate|].
      destruct (String.eqb flag "ptype"); discriminate.
  - intros msg E. pose proof (proj2 (tame_invoke m s)) as N.
    rewrite E in N. exact N.
Qed.

(** C9. With [steps < 0] both step methods run exactly as with [steps = 0];
    on an object with a non-negative nibble, a non-empty states list and a
    non-negative settle time they return normally, leave the object as it
    was, and make the assert write, the settle sleep and the de-energize
    write: two device writes. *)
Theorem negative_steps_as_zero (steps : Z) (c : Portescap20MO20DIU) (w : world) :
  steps < 0 ->
  let quiet := (c, emits [nibble_write (nibble c) (hd 0 (states c));
                          Sleep (settle_time c);
                          nibble_write (nibble c) (off c)] w) in
  step_clockwise steps (c, w) = step_clockwise 0 (c, w)
  /\ step_counterclockwise steps (c, w) = step_counterclockwise 0 (c, w)
  /\ (0 <= nibble c -> states c <> [] -> (0 <= settle_time c)%Q ->
      step_clockwise steps (c, w) = (Ok tt, quiet)
      /\ step_counterclockwise steps (c, w) = (Ok tt, quiet)
      /\ count_writes (new_calls w (snd quiet)) = 2%nat).
Proof.
  intros Hs. cbv zeta.
  assert (E : range_len steps = O) by (unfold range_len; lia).
  split; [|split].
  - unfold step_clockwise. rewrite E. reflexivity.
  - unfold step_counterclockwise. rewrite E. reflexivity.
  - intros Hn Hl Hu.
    rewrite step_clockwise_turn, step_counterclockwise_turn.
    rewrite !turn_run_empty by assumption.
    cbn [snd]. rewrite new_calls_emits. repeat split.
Qed.

(** C10. The constructor compares the polarity flag with "ptype" and with
    nothing else: under any other flag it runs exactly as under "ntype", and
    on a reachable device with a non-negative nibble it returns the n-type
    object, states [0x6, 0xa, 0x9, 0x5] and off pattern 0x0, without raising. *)
Theorem polarity_default_is_ntype (flag : string) (n : Z) (st se : Q) (w : world) :
  flag <> "ptype"%string ->
  __init__ flag n st se w = __init__ "ntype" n st se w
  /\ (check_connection (device w) <> 0 -> 0 <= n ->
      fst (__init__ flag n st se w)
      = Ok {| nibble := n; step_time := st; settle_time := se;
              states := [0x6; 0xa; 0x9; 0x5]; off := 0x0 |}).
Proof.
  intros Hf. apply String.eqb_neq in Hf. split.
  - unfold __init__. rewrite Hf. reflexivity.
  - intros Hc Hn. rewrite init_run by assumption. rewrite Hf. reflexivity.
Qed.

End Claims.

(** ** On the LabJack of the collaborator contract *)

Lemma mask_bit_outside (n i : Z) :
  ~ (4 * n <= i <= 4 * n + 3) -> Z.testbit (Z.shiftl 0xf (4 * n)) i = false.
Proof.
  intros H. destruct (Z.neg_nonneg_cases i) as [Hi|Hi].
  - now apply Z.testbit_neg_r.
  - rewrite Z.shiftl_spec by assumption.
    destruct (Z.neg_nonneg_cases (i - 4 * n)) as [Hj|Hj].
    + now apply Z.testbit_neg_r.
    + change 0xf with (Z.ones 4). apply Z.ones_spec_high. lia.
Qed.

Lemma masked_update_outside (old value mask i : Z) :
  Z.testbit mask i = false ->
  Z.testbit (masked_update old value mask) i = Z.testbit old i.
Proof.
  intros H. unfold masked_update.
  rewrite Z.lor_spec, Z.ldiff_spec, Z.land_spec, H.
  destruct (Z.testbit old i), (Z.testbit value i); reflexivity.
Qed.

Lemma own_calls_frame (n i : Z) (es : list call) (d : labjack) :
  Forall (own_call n) es -> ~ (4 * n <= i <= 4 * n + 3) ->
  Z.testbit (level (fold_left (fun d e => apply_call e d) es d)) i
  = Z.testbit (level d) i.
Proof.
  intros F H. revert d. induction F as [|e es He F IH]; intros d; [reflexivity|].
  cbn [fold_left]. rewrite IH. destruct e; simpl in He; try contradiction.
  - subst mask. cbn. apply masked_update_outside. now apply mask_bit_outside.
  - reflexivity.
Qed.

(** C6. Whatever methods are called on an object at nibble [n], every write
    they make carries the mask [0xf << (4*n)], and every device bit outside
    positions [4n .. 4n+3] ends as it started. *)
Theorem masking_isolation (ms : list method) (c : Portescap20MO20DIU)
    (w : @world labjack) :
  let w' := snd (invoke_all ms (c, w)) in
  (forall value mask, In (WriteToDIO value mask) (new_calls w w') ->
                      mask = Z.shiftl 0xf (4 * nibble c))
  /\ (forall i, ~ (4 * nibble c <= i <= 4 * nibble c + 3) ->
                Z.testbit (level (device w')) i = Z.testbit (level (device w)) i).
Proof.
  intros w'.
  destruct (ev_calls _ _ (evolves_invoke_all ms (c, w))) as (es & E & F).
  cbn [fst snd] in E, F. fold w' in E. rewrite E. split.
  - intros value mask Hin. rewrite new_calls_emits in Hin.
    rewrite Forall_forall in F. exact (F _ Hin).
  - intros i Hi. rewrite device_emits.
    apply (own_calls_frame (nibble c)); assumption.
Qed.

(** Under "ptype" the initial value the constructor drives is the object's off
    pattern at the nibble. *)
Lemma init_initial_value_is_off_ptype (n : Z) (st se : Q) (w : @world labjack) :
  check_connection (device w) <> 0 -> 0 <= n ->
  exists c : Portescap20MO20DIU,
    fst (__init__ "ptype" n st se w) = Ok c
    /\ new_calls w (snd (__init__ "ptype" n st se w))
       = [CheckConnection;
          SetDIOToOutput (Z.shiftl 0xf (4 * n)) (Z.shiftl (off c) (4 * nibble c))].
Proof.
  intros Hc Hn. rewrite init_run by assumption.
  eexists. split; [reflexivity|]. cbn [snd]. now rewrite new_calls_emits.
Qed.

(** C8 (at the default polarity).  On the bench, constructing an n-type object
    on nibble 0 configures the lines with mask 0xf and initial value 0xf, which
    leaves all four lines high, whereas the object's off pattern at that
    nibble is 0x0. *)
Theorem init_initial_value_is_not_off_ntype :
  let built := __init__ "ntype" 0 (1 # 10) (1 # 10) bench_world in
  exists c : Portescap20MO20DIU,
    fst built = Ok c
    /\ calls (snd built) = [CheckConnection; SetDIOToOutput 0xf 0xf]
    /\ level (device (snd built)) = 0xf
    /\ py_lshift (off c) (4 * nibble c) = Ok 0x0
    /\ calls (snd (snd (turn_power_off (c, snd built))))
       = [CheckConnection; SetDIOToOutput 0xf 0xf; WriteToDIO 0x0 0xf].
Proof.
  cbv zeta. eexists. repeat split.
Qed.

(** ** The claims at work on the bench *)

Lemma bench_motor_ready : ready bench_motor.
Proof.
  split; simpl.
  - lia.
  - discriminate.
  - unfold Qle; simpl; lia.
  - unfold Qle; simpl; lia.
Defined.

Lemma step_issues_steps_plus_2_writes_witness :
  0 <= 3 /\ ready bench_motor
  /\ count_writes
       (new_calls bench_world
          (snd (snd (step_clockwise 3 (bench_motor, bench_world))))) = 5%nat.
Proof.
  split; [lia|]. split; [exact bench_motor_ready|].
  pose proof (step_issues_steps_plus_2_writes 3 bench_motor bench_world
                ltac:(lia) bench_motor_ready) as H.
  cbv zeta in H. destruct H as [[_ [_ [_ H]]] _].
  apply Nat2Z.inj. exact H.
Defined.

Lemma bench_reachable : check_connection (device bench_world) <> 0.
Proof. simpl. lia. Defined.

Lemma polarity_selection_witness :
  check_connection (device bench_world) <> 0 /\ 0 <= 2
  /\ fst (__init__ "ptype" 2 (1 # 10) (1 # 10) bench_world)
     = Ok (ptype_object 2 (1 # 10) (1 # 10)).
Proof.
  split; [exact bench_reachable|]. split; [lia|].
  exact (proj2 (polarity_selection 2 (1 # 10) (1 # 10) bench_world
                  bench_reachable ltac:(lia))).
Defined.

Lemma ring_invariant_witness :
  let w0 := emits [CheckConnection; SetDIOToOutput 0xf0 0xf0] bench_world in
  __init__ "ntype" 1 (1 # 10) (1 # 10) bench_world = (Ok bench_motor, w0)
  /\ Permutation [0x6; 0xa; 0x9; 0x5]
       (states (fst (invoke_all [StepClockwise 3; StepCounterclockwise 5;
                                 TurnPowerOff]
                       (bench_motor, w0)))).
Proof.
  cbv zeta. split; [reflexivity|].
  exact (proj2 (ring_invariant "ntype" 1 (1 # 10) (1 # 10) bench_world _
                  bench_motor
                  [StepClockwise 3; StepCounterclockwise 5; TurnPowerOff]
                  eq_refl)).
Defined.

Lemma step_inverse_witness :
  ready bench_motor
  /\ states (fst (snd (step_counterclockwise 1
                         (snd (step_clockwise 1 (bench_motor, bench_world))))))
     = [0x6; 0xa; 0x9; 0x5].
Proof.
  split; [exact bench_motor_ready|].
  pose proof (step_inverse bench_motor bench_world bench_motor_ready) as H.
  cbv zeta in H. destruct H as [[_ [_ [H _]]] _]. exact H.
Defined.

Lemma full_cycle_scenario_witness :
  check_connection (device bench_world) <> 0
  /\ exists c0 : Portescap20MO20DIU,
       fst (__init__ "ntype" 1 0 0 bench_world) = Ok c0
       /\ states (fst (snd (step_clockwise 4
                              (c0, snd (__init__ "ntype" 1 0 0 bench_world)))))
          = [0x6; 0xa; 0x9; 0x5].
Proof.
  split; [exact bench_reachable|].
  destruct (full_cycle_scenario bench_world bench_reachable) as (c0 & E & H).
  exists c0. split; [exact E|]. cbv zeta in H. destruct H as [_ [H _]]. exact H.
Defined.

Lemma unreachable_device_raises_witness :
  check_connection (device dead_world) = 0
  /\ fst (__init__ "ntype" 1 (1 # 10) (1 # 10) dead_world)
     = Raise (Error not_responding).
Proof.
  split; [reflexivity|].
  destruct (unreachable_device_raises "ntype" 1 (1 # 10) (1 # 10) dead_world
              TurnPowerOff (bench_motor, dead_world)) as [H _].
  exact (proj1 (H eq_refl)).
Defined.

Lemma negative_steps_as_zero_witness :
  -3 < 0
  /\ step_clockwise (-3) (bench_motor, bench_world)
     = step_clockwise 0 (bench_motor, bench_world).
Proof.
  split; [lia|].
  exact (proj1 (negative_steps_as_zero (-3) bench_motor bench_world ltac:(lia))).
Defined.

Lemma polarity_default_is_ntype_witness :
  "ntpye"%string <> "ptype"%string
  /\ fst (__init__ "ntpye" 1 (1 # 10) (1 # 10) bench_world) = Ok bench_motor.
Proof.
  split; [discriminate|].
  exact (proj2 (polarity_default_is_ntype "ntpye" 1 (1 # 10) (1 # 10) bench_world
                  ltac:(discriminate))
           bench_reachable ltac:(lia)).
Defined.

(** * Further properties of the module *)

(** ** Turning a list round *)

Lemma rotate_by_add (rot : list Z -> list Z) (a b : nat) (l : list Z) :
  rotate_by rot (a + b) l = rotate_by rot b (rotate_by rot a l).
Proof.
  revert l. induction a as [|a IH]; intros l; [reflexivity|]. simpl. apply IH.
Qed.

Lemma rotate_by_comm (rot : list Z -> list Z) (k : nat) (l : list Z) :
  rotate_by rot k (rot l) = rot (rotate_by rot k l).
Proof.
  revert l. induction k as [|k IH]; intros l; [reflexivity|]. simpl. apply IH.
Qed.

Lemma rotate_by_rotl_app (a b : list Z) :
  rotate_by rotl (List.length a) (a ++ b) = b ++ a.
Proof.
  revert b. induction a as [|x a IH]; intros b; simpl.
  - now rewrite app_nil_r.
  - rewrite <- app_assoc, IH, <- app_assoc. reflexivity.
Qed.

Lemma rotate_by_rotl_length (l : list Z) :
  rotate_by rotl (List.length l) l = l.
Proof.
  rewrite <- (app_nil_r l) at 2. rewrite rotate_by_rotl_app. reflexivity.
Qed.

Lemma rotate_by_rotl_mul (q : nat) (l : list Z) :
  rotate_by rotl (q * List.length l) l = l.
Proof.
  induction q as [|q IH]; [reflexivity|].
  simpl Nat.mul. rewrite rotate_by_add, rotate_by_rotl_length. exact IH.
Qed.

Lemma rotate_by_rotl_mod (k : nat) (l : list Z) :
  rotate_by rotl k l = rotate_by rotl (k mod List.length l) l.
Proof.
  rewrite (Nat.div_mod_eq k (List.length l)) at 1.
  rewrite (Nat.mul_comm (List.length l)), rotate_by_add, rotate_by_rotl_mul.
  reflexivity.
Qed.

Lemma rotate_by_rotl_split (j : nat) (l : list Z) :
  (j <= List.length l)%nat -> rotate_by rotl j l = skipn j l ++ firstn j l.
Proof.
  intros H. rewrite <- (firstn_skipn j l) at 1.
  rewrite <- (firstn_length_le l H) at 1. apply rotate_by_rotl_app.
Qed.

Lemma rotate_by_rotr_rotl (k : nat) (l : list Z) :
  rotate_by rotr k (rotate_by rotl k l) = l.
Proof.
  revert l. induction k as [|k IH]; intros l; [reflexivity|].
  simpl. rewrite (rotate_by_comm rotl), rotr_rotl. apply IH.
Qed.

Lemma rotate_by_rotl_rotr (k : nat) (l : list Z) :
  rotate_by rotl k (rotate_by rotr k l) = l.
Proof.
  revert l. induction k as [|k IH]; intros l; [reflexivity|].
  simpl. rewrite (rotate_by_comm rotr), rotl_rotr. apply IH.
Qed.

Lemma rotate_by_rotl_nil (k : nat) : rotate_by rotl k [] = [].
Proof. induction k as [|k IH]; [reflexivity | exact IH]. Qed.

(** Turning right [k] places is turning left the places that are left of a
    full turn. *)
Lemma rotate_by_rotr_as_rotl (k : nat) (l : list Z) :
  rotate_by rotr k l
  = rotate_by rotl (List.length l - k mod List.length l) l.
Proof.
  set (n := List.length l).
  rewrite <- (rotate_by_rotr_rotl k (rotate_by rotl (n - k mod n) l)).
  f_equal. rewrite <- rotate_by_add.
  destruct (Nat.eq_dec n 0) as [E|E].
  - destruct l; [|discriminate]. now rewrite rotate_by_rotl_nil.
  - rewrite rotate_by_rotl_mod. fold n.
    replace ((n - k mod n + k) mod n)%nat with 0%nat; [reflexivity|].
    pose proof (Nat.mod_upper_bound k n E) as B.
    rewrite (Nat.div_mod_eq k n) at 2.
    replace (n - k mod n + (n * (k / n) + k mod n))%nat
      with ((1 + k / n) * n)%nat by nia.
    symmetry. apply Nat.Div0.mod_mul.
Qed.

Lemma rotation_refl (l : list Z) : rotation l l.
Proof. now exists 0%nat. Qed.

Lemma rotation_trans (l1 l2 l3 : list Z) :
  rotation l1 l2 -> rotation l2 l3 -> rotation l1 l3.
Proof.
  intros [a ->] [b ->]. exists (a + b)%nat. now rewrite rotate_by_add.
Qed.

Lemma rotation_rotl (l : list Z) : rotation l (rotl l).
Proof. now exists 1%nat. Qed.

Lemma rotation_rotr (l : list Z) : rotation l (rotr l).
Proof.
  exists (List.length l - 1 mod List.length l)%nat.
  now rewrite <- rotate_by_rotr_as_rotl.
Qed.

(** A turned list is one of the turns by fewer places than its length. *)
Lemma rotation_split (l l' : list Z) :
  l <> [] -> rotation l l' ->
  exists j : nat, (j < List.length l)%nat /\ l' = skipn j l ++ firstn j l.
Proof.
  intros Hl [k ->]. exists (k mod List.length l)%nat.
  assert (B : (k mod List.length l < List.length l)%nat)
    by (apply Nat.mod_upper_bound; destruct l; [congruence | discriminate]).
  split; [exact B|].
  rewrite rotate_by_rotl_mod. apply rotate_by_rotl_split. lia.
Qed.

(** ** The constructor's outcomes *)

Section FurtherProperties.

Context {D : Type} {dev : DigitalIO D}.

Local Abbreviation world := (@world D).
Local Abbreviation state := (@state D).

(** X1. The constructor returns an object exactly when the device answers the
    health check with a non-zero value and the nibble is not negative; a
    nibble above 3 is accepted like any other. *)
Theorem init_succeeds_iff (flag : string) (n : Z) (st se : Q) (w : world) :
  (exists c, fst (__init__ flag n st se w) = Ok c)
  <-> (check_connection (device w) <> 0 /\ 0 <= n).
Proof.
  split.
  - intros [c Hc]. destruct (__init__ flag n st se w) as [r w0] eqn:E.
    simpl in Hc. subst r. split.
    + intros Z0. rewrite init_unreachable in E by assumption. discriminate.
    + exact (init_Ok_nibble _ _ _ _ _ _ _ E).
  - intros [Hc Hn]. rewrite init_run by assumption. eexists. reflexivity.
Qed.

(** X2. With a negative nibble on a responding device the constructor raises
    [ValueError] at its first shift: the health check is its only call and
    the lines are never configured. *)
Theorem init_negative_nibble (flag : string) (n : Z) (st se : Q) (w : world) :
  check_connection (device w) <> 0 -> n < 0 ->
  __init__ flag n st se w = (Raise ValueError, emit CheckConnection w)
  /\ filter is_configure (new_calls w (snd (__init__ flag n st se w))) = [].
Proof.
  intros Hc Hn.
  assert (E : (4 * n <? 0) = true) by (apply Z.ltb_lt; lia).
  apply Z.eqb_neq in Hc.
  assert (R : __init__ flag n st se w = (Raise ValueError, emit CheckConnection w))
    by (unfold __init__, bind, liftR, py_lshift; rewrite Hc, E; reflexivity).
  split; [exact R|]. rewrite R. cbn [snd].
  change (emit CheckConnection w) with (emits [CheckConnection] w).
  now rewrite new_calls_emits.
Qed.

(** ** What the methods leave alone *)

(** X3. Whatever methods are called and however they end, the object's
    nibble, off pattern and two delays stay as they were: [self.states] is the
    only attribute a method assigns. *)
Theorem methods_keep_configuration (ms : list method)
    (c : Portescap20MO20DIU) (w : world) :
  let c' := fst (invoke_all ms (c, w)) in
  nibble c' = nibble c /\ off c' = off c
  /\ step_time c' = step_time c /\ settle_time c' = settle_time c.
Proof.
  destruct (evolves_invoke_all ms (c, w)) as [En Eo Et Eu _ _].
  cbv zeta. auto.
Qed.

(** X4. The methods never probe or configure the device: every call any
    sequence of them makes is a write or a sleep. *)
Theorem methods_only_write_and_sleep (ms : list method)
    (c : Portescap20MO20DIU) (w : world) :
  forallb write_or_sleep (new_calls w (snd (invoke_all ms (c, w)))) = true.
Proof.
  destruct (ev_calls _ _ (evolves_invoke_all ms (c, w))) as (es & E & F).
  cbn [fst snd] in E, F. rewrite E, new_calls_emits.
  apply forallb_forall. intros e He. rewrite Forall_forall in F.
  specialize (F e He). destruct e; simpl in F; try contradiction; reflexivity.
Qed.

(** ** The ring keeps its order *)

Lemma keeps_bind (P : Portescap20MO20DIU -> Portescap20MO20DIU -> Prop)
    {A B} (m : M state A) (f : A -> M state B) :
  (forall c1 c2 c3, P c1 c2 -> P c2 c3 -> P c1 c3) ->
  keeps P m -> (forall a, keeps P (f a)) -> keeps P (bind m f).
Proof.
  intros T Hm Hf s. unfold bind. specialize (Hm s).
  destruct (m s) as [[a|e] s1]; cbn [fst snd] in *.
  - eapply T; [exact Hm | apply Hf].
  - exact Hm.
Qed.

Lemma keeps_for_range (P : Portescap20MO20DIU -> Portescap20MO20DIU -> Prop)
    (n : nat) (body : M state unit) :
  (forall c, P c c) -> (forall c1 c2 c3, P c1 c2 -> P c2 c3 -> P c1 c3) ->
  keeps P body -> keeps P (for_range n body).
Proof.
  intros R T Hb. induction n as [|n IH]; simpl.
  - intros s. apply R.
  - apply keeps_bind; [exact T | exact Hb | intros _; exact IH].
Qed.

Lemma keeps_fixes_self (P : Portescap20MO20DIU -> Portescap20MO20DIU -> Prop)
    {A} (m : M state A) :
  (forall c, P c c) -> fixes_self m -> keeps P m.
Proof. intros R H s. rewrite H. apply R. Qed.

Lemma fixes_self_write_nibble (x : M state Z) :
  reads x -> fixes_self (write_nibble x).
Proof.
  intros Hx s. unfold write_nibble, bind. destruct (Hx s) as [E _].
  destruct (x s) as [[v|e] s1]; simpl in E; subst s1; [|reflexivity].
  unfold gets, liftR, py_lshift, self_of.
  destruct (4 * nibble (fst s) <? 0); reflexivity.
Qed.

Lemma fixes_self_time_sleep (t : Q) : fixes_self (D:=D) (time_sleep t).
Proof. intros s. unfold time_sleep. destruct (Qle_bool 0 t); reflexivity. Qed.

Lemma fixes_self_gets {A} (f : state -> A) : fixes_self (gets f).
Proof. intros s. reflexivity. Qed.

Lemma turned_refl (c : Portescap20MO20DIU) : turned c c.
Proof. apply rotation_refl. Qed.

Lemma turned_trans (c1 c2 c3 : Portescap20MO20DIU) :
  turned c1 c2 -> turned c2 c3 -> turned c1 c3.
Proof. apply rotation_trans. Qed.

Lemma keeps_turned_rotate_clockwise : keeps (D:=D) turned rotate_clockwise.
Proof.
  intros [c w]. unfold turned. cbn [fst].
  destruct (states c) as [|x t] eqn:E.
  - unfold rotate_clockwise, bind, gets, liftR, self_of. cbn [fst].
    rewrite E. cbn. rewrite E. apply rotation_refl.
  - rewrite rotate_clockwise_run by congruence. cbn. rewrite E.
    apply (rotation_rotl (x :: t)).
Qed.

Lemma keeps_turned_rotate_counterclockwise :
  keeps (D:=D) turned rotate_counterclockwise.
Proof.
  intros [c w]. unfold turned. cbn [fst].
  destruct (states c) as [|x t] eqn:E.
  - unfold rotate_counterclockwise, bind, gets, liftR, self_of. cbn [fst].
    rewrite E. cbn. rewrite E. apply rotation_refl.
  - rewrite rotate_counterclockwise_run by congruence.
    cbn [fst snd set_states states]. rewrite E.
    apply (rotation_rotr (x :: t)).
Qed.

Ltac turned_compose :=
  repeat first
    [ apply keeps_for_range; [exact turned_refl | exact turned_trans |]
    | apply keeps_fixes_self;
        [ exact turned_refl
        | first [ apply fixes_self_write_nibble;
                    first [apply reads_states_0 | apply reads_gets]
                | apply fixes_self_time_sleep
                | apply fixes_self_gets ] ]
    | apply keeps_turned_rotate_clockwise
    | apply keeps_turned_rotate_counterclockwise
    | apply keeps_bind; [exact turned_trans | | intros ?] ].

Lemma keeps_turned_invoke (m : method) : keeps (D:=D) turned (invoke m).
Proof.
  destruct m; simpl;
    [unfold step_clockwise | unfold step_counterclockwise | unfold turn_power_off];
    turned_compose.
Qed.

Lemma turned_invoke_all (ms : list method) (s : state) :
  turned (fst s) (fst (invoke_all ms s)).
Proof.
  revert s. induction ms as [|m ms IH]; intros s; simpl.
  - apply turned_refl.
  - eapply turned_trans; [apply (keeps_turned_invoke m s) | apply IH].
Qed.

(** X5. Whatever methods are called on a constructed object, its states list
    is the constructed list turned round by 0, 1, 2 or 3 places: the phases
    stay in their ring order, also after a call that raised. *)
Theorem ring_order_invariant (flag : string) (n : Z) (st se : Q) (w w0 : world)
    (c0 : Portescap20MO20DIU) (ms : list method) :
  __init__ flag n st se w = (Ok c0, w0) ->
  exists j : nat,
    (j < 4)%nat
    /\ states (fst (invoke_all ms (c0, w0)))
       = skipn j (states c0) ++ firstn j (states c0).
Proof.
  intros Hi.
  assert (L : List.length (states c0) = 4%nat)
    by (destruct (init_Ok_inv _ _ _ _ _ _ _ Hi); subst c0; reflexivity).
  assert (N : states c0 <> []) by (intros E; rewrite E in L; discriminate).
  destruct (rotation_split _ _ N (turned_invoke_all ms (c0, w0)))
    as (j & B & E).
  exists j. rewrite L in B. split; assumption.
Qed.

End FurtherProperties.

(** ** Where a step method leaves the ring *)

Lemma rotate_by_nonempty (rot : list Z -> list Z) (k : nat) (l : list Z) :
  (forall l, l <> [] -> rot l <> []) -> l <> [] -> rotate_by rot k l <> [].
Proof.
  intros H. revert l. induction k as [|k IH]; intros l Hl; simpl; auto.
Qed.

Lemma ready_set_states (l : list Z) (c : Portescap20MO20DIU) :
  ready c -> l <> [] -> ready (set_states l c).
Proof. intros [Hn Hs Ht Hu] Hl. split; assumption. Qed.

Lemma hd_skipn_firstn (j : nat) (l : list Z) :
  (j < List.length l)%nat -> hd 0 (skipn j l ++ firstn j l) = nth j l 0.
Proof.
  intros H. rewrite <- (firstn_skipn j l) at 3.
  rewrite app_nth2; rewrite firstn_length_le by lia; [|lia].
  rewrite Nat.sub_diag. destruct (skipn j l) eqn:E; [|reflexivity].
  apply (f_equal (@List.length Z)) in E. rewrite length_skipn in E.
  simpl in E. lia.
Qed.

Section FurtherRuns.

Context {D : Type} {dev : DigitalIO D}.

Local Abbreviation world := (@world D).
Local Abbreviation state := (@state D).

(** X6. On a ready object with states [l], [step_clockwise(steps)] leaves the
    list turned left by [steps mod len(l)] places, its head, the phase
    energized last, being [l[steps mod len(l)]]; [step_counterclockwise(steps)]
    leaves it turned left by the places missing to a full turn. *)
Theorem step_states_closed_form (steps : Z) (c : Portescap20MO20DIU) (w : world) :
  ready c ->
  let l := states c in
  let j := (Z.to_nat steps mod List.length l)%nat in
  let after_cw := states (fst (snd (step_clockwise steps (c, w)))) in
  let after_ccw := states (fst (snd (step_counterclockwise steps (c, w)))) in
  after_cw = skipn j l ++ firstn j l
  /\ hd 0 after_cw = nth j l 0
  /\ after_ccw = skipn (List.length l - j) l ++ firstn (List.length l - j) l.
Proof.
  intros R. cbv zeta. pose proof (ready_states c R) as Hs.
  assert (L : List.length (states c) <> 0%nat)
    by (destruct (states c); [congruence | discriminate]).
  pose proof (Nat.mod_upper_bound (Z.to_nat steps) _ L) as B.
  rewrite step_clockwise_run, step_counterclockwise_run by assumption.
  cbn [fst snd set_states states]. unfold range_len.
  rewrite rotate_by_rotr_as_rotl, rotate_by_rotl_mod.
  rewrite !rotate_by_rotl_split by lia.
  repeat split. now apply hd_skipn_firstn.
Qed.

(** X7. Steps add up: on a ready object, [a] steps followed by [b] more in
    the same direction leave the object as [a + b] steps at once do. *)
Theorem steps_compose (a b : Z) (c : Portescap20MO20DIU) (w : world) :
  ready c -> 0 <= a -> 0 <= b ->
  fst (snd (step_clockwise b (snd (step_clockwise a (c, w)))))
  = fst (snd (step_clockwise (a + b) (c, w)))
  /\ fst (snd (step_counterclockwise b (snd (step_counterclockwise a (c, w)))))
     = fst (snd (step_counterclockwise (a + b) (c, w))).
Proof.
  intros R Ha Hb. pose proof (ready_states c R) as Hs.
  rewrite (step_clockwise_run a c), (step_clockwise_run (a + b) c) by assumption.
  rewrite (step_counterclockwise_run a c), (step_counterclockwise_run (a + b) c)
    by assumption.
  cbn [fst snd].
  rewrite step_clockwise_run, step_counterclockwise_run
    by (apply ready_set_states; [assumption|];
        apply rotate_by_nonempty; auto using rotl_nonempty, rotr_nonempty).
  cbn [fst snd set_states states nibble step_time settle_time off].
  unfold range_len. rewrite Z2Nat.inj_add, !rotate_by_add by assumption.
  split; reflexivity.
Qed.

(** X8. On a ready object, any number of steps one way followed by as many
    the other way gives the object back as it was. *)
Theorem steps_cancel (steps : Z) (c : Portescap20MO20DIU) (w : world) :
  ready c ->
  fst (snd (step_counterclockwise steps (snd (step_clockwise steps (c, w))))) = c
  /\ fst (snd (step_clockwise steps (snd (step_counterclockwise steps (c, w))))) = c.
Proof.
  intros R. pose proof (ready_states c R) as Hs.
  rewrite (step_clockwise_run steps c), (step_counterclockwise_run steps c)
    by assumption.
  cbn [fst snd].
  rewrite step_clockwise_run, step_counterclockwise_run
    by (apply ready_set_states; [assumption|];
        apply rotate_by_nonempty; auto using rotl_nonempty, rotr_nonempty).
  cbn [fst snd set_states states nibble step_time settle_time off].
  rewrite rotate_by_rotr_rotl, rotate_by_rotl_rotr.
  split; now destruct c.
Qed.

End FurtherRuns.

(** ** Time slept *)

Lemma sleep_total_app (es fs : list call) :
  (sleep_total (es ++ fs) == sleep_total es + sleep_total fs)%Q.
Proof.
  induction es as [|e es IH]; simpl.
  - now rewrite Qplus_0_l.
  - destruct e; try exact IH. rewrite IH. apply Qplus_assoc.
Qed.

Lemma sleep_total_loop_calls rot nib st n l :
  (sleep_total (loop_calls rot nib st n l) == inject_Z (Z.of_nat n) * st)%Q.
Proof.
  revert l. induction n as [|n IH]; intros l.
  - simpl. now rewrite Qmult_0_l.
  - cbn [loop_calls sleep_total nibble_write]. rewrite IH.
    rewrite Nat2Z.inj_succ. unfold Z.succ. rewrite inject_Z_plus. ring.
Qed.

Lemma sleep_total_turn_calls rot c n :
  (sleep_total (turn_calls rot c n)
   == inject_Z (Z.of_nat n) * step_time c + settle_time c)%Q.
Proof.
  unfold turn_calls. cbn [sleep_total nibble_write].
  rewrite sleep_total_app, sleep_total_loop_calls.
  cbn [sleep_total nibble_write]. now rewrite Qplus_0_r.
Qed.

Section FurtherCalls.

Context {D : Type} {dev : DigitalIO D}.

Local Abbreviation world := (@world D).
Local Abbreviation state := (@state D).

(** X9. On a ready object a step method of [steps >= 0] steps sleeps
    [steps * step_time + settle_time] seconds in all. *)
Theorem step_sleeps_in_all (steps : Z) (c : Portescap20MO20DIU) (w : world) :
  ready c -> 0 <= steps ->
  (sleep_total (new_calls w (snd (snd (step_clockwise steps (c, w)))))
   == inject_Z steps * step_time c + settle_time c)%Q
  /\ (sleep_total (new_calls w (snd (snd (step_counterclockwise steps (c, w)))))
      == inject_Z steps * step_time c + settle_time c)%Q.
Proof.
  intros R Hs.
  rewrite step_clockwise_run, step_counterclockwise_run by assumption.
  cbn [fst snd]. rewrite !new_calls_emits, !sleep_total_turn_calls.
  unfold range_len. rewrite Z2Nat.id by assumption. split; reflexivity.
Qed.

(** ** A step method stopped by a sleep *)

Lemma last_write_app (es fs : list call) :
  last_write (es ++ fs)
  = match last_write fs with
    | Some p => Some p
    | None => last_write es
    end.
Proof.
  induction es as [|e es IH]; simpl.
  - now destruct (last_write fs).
  - rewrite IH. now destruct (last_write fs).
Qed.

Lemma last_write_loop_calls rot nib st k l :
  last_write (loop_calls rot nib st (S k) l)
  = Some (Z.shiftl (hd 0 (rotate_by rot (S k) l)) (4 * nib),
          Z.shiftl 0xf (4 * nib)).
Proof.
  revert l. induction k as [|k IH]; intros l; [reflexivity|].
  change (loop_calls rot nib st (S (S k)) l)
    with ([nibble_write nib (hd 0 (rot l)); Sleep st]
          ++ loop_calls rot nib st (S k) (rot l)).
  rewrite last_write_app, IH. reflexivity.
Qed.

(** After the assert write and [k] turns of the loop the most recent write
    is the head of the list as it then stands. *)
Lemma last_write_assert_loop (pre : list call) rot nib st k l :
  last_write (pre ++ nibble_write nib (hd 0 l) :: loop_calls rot nib st k l)
  = Some (Z.shiftl (hd 0 (rotate_by rot k l)) (4 * nib), Z.shiftl 0xf (4 * nib)).
Proof.
  destruct k as [|k].
  - apply last_write_snoc.
  - change (pre ++ nibble_write nib (hd 0 l) :: loop_calls rot nib st (S k) l)
      with (pre ++ [nibble_write nib (hd 0 l)] ++ loop_calls rot nib st (S k) l).
    rewrite app_assoc, last_write_app, last_write_loop_calls. reflexivity.
Qed.

Variable rotate : M state unit.
Variable rot : list Z -> list Z.
Hypothesis rot_nonempty : forall l, l <> [] -> rot l <> [].
Hypothesis rotate_run : forall c w,
  states c <> [] -> rotate (c, w) = (Ok tt, (set_states (rot (states c)) c, w)).

(** The loop needs nothing of the settle time. *)
Lemma loop_run_any_settle (n : nat) (c : Portescap20MO20DIU) (w : world) :
  0 <= nibble c -> states c <> [] -> (0 <= step_time c)%Q ->
  for_range n
    (rotate ;;
     write_nibble states_0 ;;
     t <- gets (fun s => step_time (self_of s)) ;;
     time_sleep t)%py (c, w)
  = (Ok tt, (set_states (rotate_by rot n (states c)) c,
             emits (loop_calls rot (nibble c) (step_time c) n (states c)) w)).
Proof.
  revert c w. induction n as [|n IH]; intros c w Hn Hs Ht.
  - simpl. now rewrite set_states_id.
  - cbn [for_range]. unfold bind at 1. unfold bind at 1.
    rewrite rotate_run by assumption.
    unfold bind at 1.
    rewrite write_nibble_states_0_run by (simpl; auto).
    unfold bind at 1, gets at 1.
    rewrite time_sleep_run by (simpl; assumption).
    cbn [fst snd self_of].
    rewrite IH by (simpl; auto).
    reflexivity.
Qed.

Lemma time_sleep_negative (t : Q) (s : state) :
  (t < 0)%Q -> time_sleep t s = (Raise ValueError, s).
Proof.
  intros Ht. unfold time_sleep.
  destruct (Qle_bool 0 t) eqn:E; [|reflexivity].
  apply Qle_bool_iff in E. exfalso. exact (Qlt_not_le _ _ Ht E).
Qed.

Lemma turn_negative_settle (steps : Z) (c : Portescap20MO20DIU) (w : world) :
  0 <= nibble c -> states c <> [] -> (0 <= step_time c)%Q ->
  (settle_time c < 0)%Q ->
  turn rotate steps (c, w)
  = (Raise ValueError,
     (set_states (rotate_by rot (range_len steps) (states c)) c,
      emits (nibble_write (nibble c) (hd 0 (states c))
               :: loop_calls rot (nibble c) (step_time c) (range_len steps)
                    (states c)) w)).
Proof.
  intros Hn Hs Ht Hu. unfold turn.
  unfold bind at 1. rewrite write_nibble_states_0_run by assumption.
  unfold bind at 1. rewrite loop_run_any_settle by assumption.
  unfold bind at 1, gets at 1.
  unfold bind at 1. rewrite time_sleep_negative by (simpl; assumption).
  reflexivity.
Qed.

Lemma turn_negative_step_time (steps : Z) (c : Portescap20MO20DIU) (w : world) :
  0 <= nibble c -> states c <> [] -> (step_time c < 0)%Q -> 1 <= steps ->
  turn rotate steps (c, w)
  = (Raise ValueError,
     (set_states (rot (states c)) c,
      emits [nibble_write (nibble c) (hd 0 (states c));
             nibble_write (nibble c) (hd 0 (rot (states c)))] w)).
Proof.
  intros Hn Hs Ht H1. unfold turn.
  destruct (range_len steps) as [|k] eqn:E; [unfold range_len in E; lia|].
  unfold bind at 1. rewrite write_nibble_states_0_run by assumption.
  unfold bind at 1. cbn [for_range].
  unfold bind at 1. unfold bind at 1.
  rewrite rotate_run by assumption.
  unfold bind at 1.
  rewrite write_nibble_states_0_run by (simpl; auto).
  unfold bind at 1, gets at 1.
  rewrite time_sleep_negative by (simpl; assumption).
  reflexivity.
Qed.

End FurtherCalls.

Section StoppedSteps.

Context {D : Type} {dev : DigitalIO D}.

Local Abbreviation world := (@world D).
Local Abbreviation state := (@state D).

(** X10. With a negative settle time a step method makes all its steps and
    then raises [ValueError] at the settle sleep: the de-energize write is
    never made, and the most recent write is the phase at the head of the
    states list, which the lines keep driving. *)
Theorem negative_settle_time_skips_off
    (steps : Z) (c : Portescap20MO20DIU) (w : world) :
  0 <= nibble c -> states c <> [] -> (0 <= step_time c)%Q ->
  (settle_time c < 0)%Q ->
  let cw := step_clockwise steps (c, w) in
  let ccw := step_counterclockwise steps (c, w) in
  let head_write (s : state) :=
    Some (Z.shiftl (hd 0 (states (fst s))) (4 * nibble c),
          Z.shiftl 0xf (4 * nibble c)) in
  (fst cw = Raise ValueError
   /\ states (fst (snd cw)) = rotate_by rotl (range_len steps) (states c)
   /\ count_writes (new_calls w (snd (snd cw))) = S (range_len steps)
   /\ last_write (calls (snd (snd cw))) = head_write (snd cw))
  /\ (fst ccw = Raise ValueError
      /\ states (fst (snd ccw)) = rotate_by rotr (range_len steps) (states c)
      /\ count_writes (new_calls w (snd (snd ccw))) = S (range_len steps)
      /\ last_write (calls (snd (snd ccw))) = head_write (snd ccw)).
Proof.
  intros Hn Hs Ht Hu. cbv zeta.
  rewrite step_clockwise_turn, step_counterclockwise_turn.
  rewrite (turn_negative_settle _ rotl rotl_nonempty rotate_clockwise_run)
    by assumption.
  rewrite (turn_negative_settle _ rotr rotr_nonempty rotate_counterclockwise_run)
    by assumption.
  cbn [fst snd set_states states]. rewrite !new_calls_emits, !calls_emits.
  rewrite !last_write_assert_loop.
  assert (C : forall rot,
             count_writes (nibble_write (nibble c) (hd 0 (states c))
                             :: loop_calls rot (nibble c) (step_time c)
                                  (range_len steps) (states c))
             = S (range_len steps)).
  { intros rot. unfold count_writes. cbn [filter is_write nibble_write List.length].
    f_equal. apply count_writes_loop_calls. }
  rewrite !C. repeat split.
Qed.

(** X11. With a negative step time a step method of at least one step raises
    [ValueError] at the first sleep of the loop: it has turned the states list
    one place and written the new head, and stops there, the lines left
    driving that phase. *)
Theorem negative_step_time_stops_after_one
    (steps : Z) (c : Portescap20MO20DIU) (w : world) :
  0 <= nibble c -> states c <> [] -> (step_time c < 0)%Q -> 1 <= steps ->
  step_clockwise steps (c, w)
  = (Raise ValueError,
     (set_states (rotl (states c)) c,
      emits [nibble_write (nibble c) (hd 0 (states c));
             nibble_write (nibble c) (hd 0 (rotl (states c)))] w))
  /\ step_counterclockwise steps (c, w)
     = (Raise ValueError,
        (set_states (rotr (states c)) c,
         emits [nibble_write (nibble c) (hd 0 (states c));
                nibble_write (nibble c) (hd 0 (rotr (states c)))] w)).
Proof.
  intros Hn Hs Ht H1.
  rewrite step_clockwise_turn, step_counterclockwise_turn.
  rewrite (turn_negative_step_time _ rotl rotl_nonempty rotate_clockwise_run)
    by assumption.
  rewrite (turn_negative_step_time _ rotr rotr_nonempty rotate_counterclockwise_run)
    by assumption.
  split; reflexivity.
Qed.

(** X12. [turn_power_off] after a completed step repeats the write the step
    ended with, makes no other call, and leaves the object, so the place in
    the ring, as the step left it. *)
Theorem power_off_repeats_last_write
    (steps : Z) (c : Portescap20MO20DIU) (w : world) :
  ready c ->
  let after := snd (step_clockwise steps (c, w)) in
  let powered_off := turn_power_off after in
  fst powered_off = Ok tt
  /\ fst (snd powered_off) = fst after
  /\ new_calls (snd after) (snd (snd powered_off))
     = [nibble_write (nibble c) (off c)]
  /\ last_write (calls (snd after))
     = Some (Z.shiftl (off c) (4 * nibble c), Z.shiftl 0xf (4 * nibble c)).
Proof.
  intros R. cbv zeta. rewrite step_clockwise_run by assumption.
  cbn [fst snd]. unfold turn_power_off.
  rewrite write_nibble_off_run by (cbn; apply (ready_nibble c R)).
  cbn [fst snd set_states nibble off].
  change (emit (nibble_write (nibble c) (off c))
            (emits (turn_calls rotl c (range_len steps)) w))
    with (emits [nibble_write (nibble c) (off c)]
            (emits (turn_calls rotl c (range_len steps)) w)).
  rewrite new_calls_emits, calls_emits.
  repeat split. apply last_write_turn_calls.
Qed.

End StoppedSteps.

(** ** What is written *)

Lemma rotl_perm (l : list Z) : Permutation l (rotl l).
Proof. destruct l as [|x t]; [constructor | apply Permutation_cons_append]. Qed.

Lemma rotr_perm (l : list Z) : Permutation l (rotr l).
Proof.
  rewrite <- (rotl_rotr l) at 1. symmetry. apply rotl_perm.
Qed.

Lemma rotate_by_perm (rot : list Z -> list Z) (k : nat) (l : list Z) :
  (forall l, Permutation l (rot l)) -> Permutation l (rotate_by rot k l).
Proof.
  intros H. revert l. induction k as [|k IH]; intros l; simpl; [reflexivity|].
  transitivity (rot l); [apply H | apply IH].
Qed.

Lemma hd_In (l : list Z) : l <> [] -> In (hd 0 l) l.
Proof. destruct l; [congruence | intros _; now left]. Qed.

Lemma perm_nonempty (l l' : list Z) : Permutation l l' -> l <> [] -> l' <> [].
Proof.
  intros P Hl E. subst l'. apply Hl. now apply Permutation_nil, Permutation_sym.
Qed.

Lemma writes_pattern_of_write (n x : Z) (ps : list Z) :
  In x ps -> writes_pattern_of n ps (nibble_write n x).
Proof.
  intros Hx v m E. unfold nibble_write in E. inversion E. now exists x.
Qed.

Lemma writes_pattern_of_sleep (n : Z) (ps : list Z) (t : Q) :
  writes_pattern_of n ps (Sleep t).
Proof. intros v m E. discriminate. Qed.

Lemma writes_pattern_of_incl (n : Z) (ps qs : list Z) (e : call) :
  incl ps qs -> writes_pattern_of n ps e -> writes_pattern_of n qs e.
Proof.
  intros I H v m E. destruct (H v m E) as (x & Hx & Hv). exists x. auto.
Qed.

Lemma loop_calls_patterns (rot : list Z -> list Z) nib st k l ps :
  (forall l, Permutation l (rot l)) -> l <> [] -> incl l ps ->
  Forall (writes_pattern_of nib ps) (loop_calls rot nib st k l).
Proof.
  intros H. revert l. induction k as [|k IH]; intros l Hl I; [constructor|].
  assert (Hr : rot l <> []) by (eapply perm_nonempty; eauto).
  assert (Ir : incl (rot l) ps)
    by (intros x Hx; apply I; eapply Permutation_in; [symmetry; apply H | exact Hx]).
  cbn [loop_calls]. constructor; [|constructor].
  - apply writes_pattern_of_write. apply Ir. now apply hd_In.
  - apply writes_pattern_of_sleep.
  - now apply IH.
Qed.

Lemma turn_calls_patterns (rot : list Z -> list Z) c k :
  (forall l, Permutation l (rot l)) -> states c <> [] ->
  Forall (writes_pattern_of (nibble c) (off c :: states c)) (turn_calls rot c k).
Proof.
  intros H Hs. unfold turn_calls. constructor.
  - apply writes_pattern_of_write. right. now apply hd_In.
  - apply Forall_app. split.
    + apply loop_calls_patterns; auto. intros x Hx. now right.
    + constructor; [apply writes_pattern_of_sleep|]. constructor; [|constructor].
      apply writes_pattern_of_write. now left.
Qed.

Section Patterns.

Context {D : Type} {dev : DigitalIO D}.

Local Abbreviation world := (@world D).
Local Abbreviation state := (@state D).

(** A method on a ready object returns normally, with the states list
    permuted and calls that write patterns of the object only. *)
Lemma invoke_ready (m : method) (c : Portescap20MO20DIU) (w : world) :
  ready c ->
  exists l1 es,
    invoke m (c, w) = (Ok tt, (set_states l1 c, emits es w))
    /\ Permutation (states c) l1
    /\ Forall (writes_pattern_of (nibble c) (off c :: states c)) es.
Proof.
  intros R. pose proof (ready_states c R) as Hs. destruct m as [steps|steps|]; simpl.
  - eexists _, _. split; [apply step_clockwise_run; assumption|]. split.
    + apply rotate_by_perm, rotl_perm.
    + apply turn_calls_patterns; [apply rotl_perm | assumption].
  - eexists _, _. split; [apply step_counterclockwise_run; assumption|]. split.
    + apply rotate_by_perm, rotr_perm.
    + apply turn_calls_patterns; [apply rotr_perm | assumption].
  - exists (states c), [nibble_write (nibble c) (off c)]. split; [|split].
    + unfold turn_power_off. rewrite write_nibble_off_run by apply R.
      now rewrite set_states_id.
    + reflexivity.
    + constructor; [|constructor]. apply writes_pattern_of_write. now left.
Qed.

Lemma invoke_all_patterns (ms : list method) (c : Portescap20MO20DIU) (w : world) :
  ready c ->
  Forall (writes_pattern_of (nibble c) (off c :: states c))
    (new_calls w (snd (invoke_all ms (c, w)))).
Proof.
  revert c w. induction ms as [|m ms IH]; intros c w R.
  - simpl. change w with (emits [] w) at 2. rewrite new_calls_emits. constructor.
  - destruct (invoke_ready m c w R) as (l1 & es & E & P & F).
    cbn [invoke_all fold_left]. rewrite E. cbn [snd].
    fold (invoke_all ms (set_states l1 c, emits es w)).
    assert (R1 : ready (set_states l1 c)).
    { apply ready_set_states; [assumption|].
      eapply perm_nonempty; [exact P | apply R]. }
    specialize (IH (set_states l1 c) (emits es w) R1).
    destruct (ev_calls _ _ (evolves_invoke_all ms (set_states l1 c, emits es w)))
      as (fs & Ef & _).
    cbn [fst snd] in Ef. rewrite Ef in IH |- *.
    rewrite new_calls_emits in IH. rewrite <- emits_app, new_calls_emits.
    apply Forall_app. split; [exact F|].
    eapply Forall_impl; [|exact IH]. intros e.
    apply writes_pattern_of_incl. cbn [set_states off states].
    intros x [Hx|Hx]; [now left | right].
    eapply Permutation_in; [symmetry; exact P | exact Hx].
Qed.

(** X13. On an object built with non-negative delays, whatever methods are
    called, every value written to the device is one of the object's four
    phase patterns or its off pattern, shifted to the nibble, and so has no
    bit outside the mask it is written under. *)
Theorem writes_are_patterns (flag : string) (n : Z) (st se : Q) (w w0 : world)
    (c0 : Portescap20MO20DIU) (ms : list method) :
  __init__ flag n st se w = (Ok c0, w0) -> (0 <= st)%Q -> (0 <= se)%Q ->
  let made := new_calls w0 (snd (invoke_all ms (c0, w0))) in
  Forall (writes_pattern_of n (off c0 :: states c0)) made
  /\ Forall (fun e => forall v m, e = WriteToDIO v m -> Z.land v m = v) made.
Proof.
  intros Hi Ht Hu made.
  pose proof (ready_invoke_all flag n st se w w0 c0 [] Hi Ht Hu) as R.
  cbn [invoke_all fold_left fst] in R.
  assert (Hn : nibble c0 = n)
    by (destruct (init_Ok_inv _ _ _ _ _ _ _ Hi); subst c0; reflexivity).
  pose proof (invoke_all_patterns ms c0 w0 R) as F. rewrite Hn in F.
  fold made in F. split; [exact F|].
  destruct (ev_calls _ _ (evolves_invoke_all ms (c0, w0))) as (es & Ee & Fo).
  cbn [fst snd] in Ee, Fo. unfold made in *. rewrite Ee, new_calls_emits in *.
  rewrite Forall_forall in *. intros e He v m E. subst e.
  specialize (Fo _ He). simpl in Fo. rewrite Hn in Fo. subst m.
  destruct (F _ He v _ eq_refl) as (x & Hx & ->).
  rewrite <- Z.shiftl_land. f_equal.
  destruct (init_Ok_inv _ _ _ _ _ _ _ Hi); subst c0; simpl in Hx;
    repeat (destruct Hx as [<-|Hx]; [reflexivity|]); contradiction.
Qed.

End Patterns.

(** ** The two polarities *)

Lemma rotl_map (f : Z -> Z) (l : list Z) : rotl (map f l) = map f (rotl l).
Proof. destruct l as [|x t]; [reflexivity|]. simpl. now rewrite map_app. Qed.

Lemma last_map_nonempty (f : Z -> Z) (l : list Z) :
  l <> [] -> last (map f l) 0 = f (last l 0).
Proof.
  induction l as [|x t IH]; [congruence|]. intros _.
  destruct t as [|y t]; [reflexivity|].
  change (last (map f (y :: t)) 0 = f (last (y :: t) 0)). apply IH. discriminate.
Qed.

Lemma removelast_map (f : Z -> Z) (l : list Z) :
  removelast (map f l) = map f (removelast l).
Proof.
  induction l as [|x t IH]; [reflexivity|].
  destruct t as [|y t]; [reflexivity|].
  change (f x :: removelast (map f (y :: t)) = f x :: map f (removelast (y :: t))).
  now rewrite IH.
Qed.

Lemma rotr_map (f : Z -> Z) (l : list Z) : rotr (map f l) = map f (rotr l).
Proof.
  destruct l as [|x t]; [reflexivity|].
  change (last (map f (x :: t)) 0 :: removelast (map f (x :: t))
          = f (last (x :: t) 0) :: map f (removelast (x :: t))).
  rewrite last_map_nonempty by discriminate. now rewrite removelast_map.
Qed.

Lemma invert_nibble_write (n x : Z) :
  invert_call (nibble_write n x) = nibble_write n (Z.lxor x 0xf).
Proof. unfold nibble_write, invert_call. now rewrite Z.shiftl_lxor. Qed.

Lemma hd_map_nonempty (f : Z -> Z) (l : list Z) :
  l <> [] -> hd 0 (map f l) = f (hd 0 l).
Proof. destruct l; [congruence | reflexivity]. Qed.

Lemma loop_calls_invert (rot : list Z -> list Z) nib st k l :
  (forall f l, rot (map f l) = map f (rot l)) ->
  (forall l, l <> [] -> rot l <> []) -> l <> [] ->
  loop_calls rot nib st k (map (fun x => Z.lxor x 0xf) l)
  = map invert_call (loop_calls rot nib st k l).
Proof.
  intros Hm Hr. revert l. induction k as [|k IH]; intros l Hl; [reflexivity|].
  cbn [loop_calls map]. rewrite Hm, hd_map_nonempty, IH, invert_nibble_write by auto.
  reflexivity.
Qed.

Lemma turn_calls_invert (rot : list Z -> list Z) (n : Z) (st se : Q) (k : nat) :
  (forall f l, rot (map f l) = map f (rot l)) ->
  (forall l, l <> [] -> rot l <> []) ->
  turn_calls rot (ptype_object n st se) k
  = map invert_call (turn_calls rot (ntype_object n st se) k).
Proof.
  intros Hm Hr. unfold turn_calls.
  cbn [ptype_object ntype_object nibble states off step_time settle_time hd].
  rewrite map_cons, map_app, invert_nibble_write.
  rewrite <- (loop_calls_invert rot) by (assumption || discriminate).
  cbn [map invert_call]. rewrite invert_nibble_write. reflexivity.
Qed.

Section Polarities.

Context {D : Type} {dev : DigitalIO D}.

Local Abbreviation world := (@world D).

(** X14. The p-type drive is the n-type drive inverted: for the same nibble,
    delays and step count, a step method on the p-type object makes the calls
    it makes on the n-type object, each write with its four lines inverted. *)
Theorem polarity_inversion (steps n : Z) (st se : Q) (w : world) :
  0 <= n -> (0 <= st)%Q -> (0 <= se)%Q ->
  new_calls w (snd (snd (step_clockwise steps (ptype_object n st se, w))))
  = map invert_call
      (new_calls w (snd (snd (step_clockwise steps (ntype_object n st se, w)))))
  /\ new_calls w (snd (snd (step_counterclockwise steps (ptype_object n st se, w))))
     = map invert_call
         (new_calls w
            (snd (snd (step_counterclockwise steps (ntype_object n st se, w))))).
Proof.
  intros Hn Ht Hu.
  assert (Rp : ready (ptype_object n st se)) by (split; cbn; auto; discriminate).
  assert (Rn : ready (ntype_object n st se)) by (split; cbn; auto; discriminate).
  rewrite !step_clockwise_run, !step_counterclockwise_run by assumption.
  cbn [fst snd]. rewrite !new_calls_emits. split.
  - apply turn_calls_invert; [exact rotl_map | exact rotl_nonempty].
  - apply turn_calls_invert; [exact rotr_map | exact rotr_nonempty].
Qed.

End Polarities.

(** ** The further properties at work on the bench *)

Lemma tenth_nonneg : (0 <= 1 # 10)%Q.
Proof. unfold Qle; simpl; lia. Defined.

Lemma minus_tenth_negative : (-1 # 10 < 0)%Q.
Proof. unfold Qlt; simpl; lia. Defined.

Lemma init_negative_nibble_witness :
  check_connection (device bench_world) <> 0 /\ -1 < 0
  /\ fst (__init__ "ntype" (-1) (1 # 10) (1 # 10) bench_world) = Raise ValueError.
Proof.
  split; [exact bench_reachable|]. split; [lia|].
  rewrite (proj1 (init_negative_nibble "ntype" (-1) (1 # 10) (1 # 10)
                    bench_world bench_reachable ltac:(lia))).
  reflexivity.
Defined.

Lemma ring_order_invariant_witness :
  let w0 := emits [CheckConnection; SetDIOToOutput 0xf0 0xf0] bench_world in
  __init__ "ntype" 1 (1 # 10) (1 # 10) bench_world = (Ok bench_motor, w0)
  /\ exists j : nat,
       (j < 4)%nat
       /\ states (fst (invoke_all [StepClockwise 3; TurnPowerOff;
                                   StepCounterclockwise 5]
                         (bench_motor, w0)))
          = skipn j (states bench_motor) ++ firstn j (states bench_motor).
Proof.
  cbv zeta. split; [reflexivity|].
  exact (ring_order_invariant "ntype" 1 (1 # 10) (1 # 10) bench_world _
           bench_motor [StepClockwise 3; TurnPowerOff; StepCounterclockwise 5]
           eq_refl).
Defined.

Lemma step_states_closed_form_witness :
  ready bench_motor
  /\ states (fst (snd (step_clockwise 6 (bench_motor, bench_world))))
     = [0x9; 0x5; 0x6; 0xa].
Proof.
  split; [exact bench_motor_ready|].
  exact (proj1 (step_states_closed_form 6 bench_motor bench_world
                  bench_motor_ready)).
Defined.

Lemma steps_compose_witness :
  ready bench_motor /\ 0 <= 1 /\ 0 <= 2
  /\ fst (snd (step_clockwise 2 (snd (step_clockwise 1 (bench_motor, bench_world)))))
     = fst (snd (step_clockwise (1 + 2) (bench_motor, bench_world))).
Proof.
  split; [exact bench_motor_ready|]. split; [lia|]. split; [lia|].
  exact (proj1 (steps_compose 1 2 bench_motor bench_world bench_motor_ready
                  ltac:(lia) ltac:(lia))).
Defined.

Lemma steps_cancel_witness :
  ready bench_motor
  /\ fst (snd (step_counterclockwise 3
                 (snd (step_clockwise 3 (bench_motor, bench_world)))))
     = bench_motor.
Proof.
  split; [exact bench_motor_ready|].
  exact (proj1 (steps_cancel 3 bench_motor bench_world bench_motor_ready)).
Defined.

Lemma step_sleeps_in_all_witness :
  ready bench_motor /\ 0 <= 3
  /\ (sleep_total
        (new_calls bench_world
           (snd (snd (step_clockwise 3 (bench_motor, bench_world)))))
      == inject_Z 3 * (1 # 10) + (1 # 10))%Q.
Proof.
  split; [exact bench_motor_ready|]. split; [lia|].
  exact (proj1 (step_sleeps_in_all 3 bench_motor bench_world bench_motor_ready
                  ltac:(lia))).
Defined.

Lemma negative_settle_time_skips_off_witness :
  0 <= 1 /\ [0x6; 0xa; 0x9; 0x5] <> [] /\ (0 <= 1 # 10)%Q /\ (-1 # 10 < 0)%Q
  /\ fst (step_clockwise 2 (ntype_object 1 (1 # 10) (-1 # 10), bench_world))
     = Raise ValueError.
Proof.
  split; [lia|]. split; [discriminate|].
  split; [exact tenth_nonneg|]. split; [exact minus_tenth_negative|].
  exact (proj1 (proj1 (negative_settle_time_skips_off 2
                         (ntype_object 1 (1 # 10) (-1 # 10)) bench_world
                         ltac:(simpl; lia) ltac:(discriminate)
                         tenth_nonneg minus_tenth_negative))).
Defined.

Lemma negative_step_time_stops_after_one_witness :
  0 <= 1 /\ [0x6; 0xa; 0x9; 0x5] <> [] /\ (-1 # 10 < 0)%Q /\ 1 <= 2
  /\ fst (step_clockwise 2 (ntype_object 1 (-1 # 10) (1 # 10), bench_world))
     = Raise ValueError.
Proof.
  split; [lia|]. split; [discriminate|].
  split; [exact minus_tenth_negative|]. split; [lia|].
  rewrite (proj1 (negative_step_time_stops_after_one 2
                    (ntype_object 1 (-1 # 10) (1 # 10)) bench_world
                    ltac:(simpl; lia) ltac:(discriminate)
                    minus_tenth_negative ltac:(lia))).
  reflexivity.
Defined.

Lemma power_off_repeats_last_write_witness :
  ready bench_motor
  /\ new_calls (snd (snd (step_clockwise 3 (bench_motor, bench_world))))
       (snd (snd (turn_power_off
                    (snd (step_clockwise 3 (bench_motor, bench_world))))))
     = [WriteToDIO 0x00 0xf0].
Proof.
  split; [exact bench_motor_ready|].
  pose proof (power_off_repeats_last_write 3 bench_motor bench_world
                bench_motor_ready) as H.
  cbv zeta in H. exact (proj1 (proj2 (proj2 H))).
Defined.

Lemma writes_are_patterns_witness :
  let w0 := emits [CheckConnection; SetDIOToOutput 0xf0 0xf0] bench_world in
  __init__ "ntype" 1 (1 # 10) (1 # 10) bench_world = (Ok bench_motor, w0)
  /\ (0 <= 1 # 10)%Q
  /\ Forall (writes_pattern_of 1 [0x0; 0x6; 0xa; 0x9; 0x5])
       (new_calls w0
          (snd (invoke_all [StepClockwise 2; StepCounterclockwise 1]
                  (bench_motor, w0)))).
Proof.
  cbv zeta. split; [reflexivity|]. split; [exact tenth_nonneg|].
  exact (proj1 (writes_are_patterns "ntype" 1 (1 # 10) (1 # 10) bench_world _
                  bench_motor [StepClockwise 2; StepCounterclockwise 1]
                  eq_refl tenth_nonneg tenth_nonneg)).
Defined.

Lemma polarity_inversion_witness :
  0 <= 1 /\ (0 <= 1 # 10)%Q
  /\ new_calls bench_world
       (snd (snd (step_clockwise 2 (ptype_object 1 (1 # 10) (1 # 10), bench_world))))
     = map invert_call
         (new_calls bench_world
            (snd (snd (step_clockwise 2
                         (ntype_object 1 (1 # 10) (1 # 10), bench_world))))).
Proof.
  split; [lia|]. split; [exact tenth_nonneg|].
  exact (proj1 (polarity_inversion 2 1 (1 # 10) (1 # 10) bench_world
                  ltac:(lia) tenth_nonneg tenth_nonneg)).
Defined.
